(** * An educational virtual machine: assembler and interpreter

    A shallow embedding of [assembler.py] and [interpreter.py]: the bit-packed
    instruction encoding written by the assembler, the fetch/decode/execute
    loop of the interpreter, and the command-line drivers around them.

    Conventions of the embedding.
    - Python integers are [Z]; byte strings are [list byte]; the program
      counter, which only ever counts bytes upwards from 0, is a [nat].
    - Python [str] values are [string]s over 8-bit code points (the Latin-1
      part of Unicode).
    - A raised exception is the left injection of a sum; the machine state
      at the moment of the raise is returned next to it wherever the code
      mutates state.
    - [print] to standard output is not modelled. *)

From Stdlib Require Import ZArith List String Ascii Bool Lia.
From Stdlib.Strings Require Import Byte.
From stdpp Require Import base list.

Local Open Scope Z_scope.

(** ** Python primitives used by both programs *)

Module Py.

(** [str.isspace] on 8-bit code points: TAB..CR, FS..US, SPACE, NEL, NBSP.
    The same class is used by [str.strip], by [\s] in [re] and by [int]. *)
Definition isspace (c : ascii) : bool :=
  let n := nat_of_ascii c in
  ((9 <=? n) && (n <=? 13) || (28 <=? n) && (n <=? 32)
   || (n =? 133) || (n =? 160))%nat.

Fixpoint lstrip (s : string) : string :=
  match s with
  | EmptyString => EmptyString
  | String c s' => if isspace c then lstrip s' else s
  end.

Fixpoint rstrip (s : string) : string :=
  match s with
  | EmptyString => EmptyString
  | String c s' =>
      match rstrip s' with
      | EmptyString => if isspace c then EmptyString else String c EmptyString
      | r => String c r
      end
  end.

(** [s.strip()] *)
Definition strip (s : string) : string := rstrip (lstrip s).

(** [s.split(sep, 1)[0]] for a one-character separator: everything before
    its first occurrence, the whole string when it does not occur. *)
Fixpoint split1_head (sep : ascii) (s : string) : string :=
  match s with
  | EmptyString => EmptyString
  | String c s' => if Ascii.eqb c sep then EmptyString else String c (split1_head sep s')
  end.

(** [re.split(r'\s+', s)]: the pieces between maximal runs of whitespace,
    empty pieces at either end included.  [skipping] is set while inside a
    run; [cur] is the piece being read. *)
Fixpoint re_split_ws_from (skipping : bool) (cur : string) (s : string) : list string :=
  match s with
  | EmptyString => [cur]
  | String c s' =>
      if isspace c then
        if skipping then re_split_ws_from true cur s'
        else cur :: re_split_ws_from true EmptyString s'
      else re_split_ws_from false (cur ++ String c EmptyString) s'
  end.

Definition re_split_ws (s : string) : list string :=
  re_split_ws_from false EmptyString s.

(** [s.upper()].  Letters a..z are mapped; code points from 128 on are left
    as they are (none of them upper-cases to an ASCII letter that occurs in
    a mnemonic, so membership in [OPCODES] is not affected). *)
Definition upper_char (c : ascii) : ascii :=
  let n := nat_of_ascii c in
  if ((97 <=? n) && (n <=? 122))%nat then ascii_of_nat (n - 32) else c.

Fixpoint upper (s : string) : string :=
  match s with
  | EmptyString => EmptyString
  | String c s' => String (upper_char c) (upper s')
  end.

Definition isdigit (c : ascii) : bool :=
  let n := nat_of_ascii c in ((48 <=? n) && (n <=? 57))%nat.

Definition digit_value (c : ascii) : Z := Z.of_nat (nat_of_ascii c) - 48.

(** The digit part of an [int] literal in base 10: decimal digits, with
    single underscores allowed between two digits. *)
Fixpoint int_digits (acc : Z) (after_digit : bool) (s : string) : option Z :=
  match s with
  | EmptyString => if after_digit then Some acc else None
  | String c s' =>
      if isdigit c then int_digits (10 * acc + digit_value c) true s'
      else if Ascii.eqb c "_"%char && after_digit then int_digits acc false s'
      else None
  end.

(** [int(s)] for a [str]: surrounding whitespace is dropped, one sign is
    allowed.  [None] stands for the [ValueError] "invalid literal". *)
Definition int (s : string) : option Z :=
  match strip s with
  | String "+"%char r => int_digits 0 false r
  | String "-"%char r => Z.opp <$> int_digits 0 false r
  | r => int_digits 0 false r
  end.

Definition byte_to_Z (b : byte) : Z := Z.of_N (Byte.to_N b).

Definition byte_of_Z (z : Z) : byte :=
  default x00 (Byte.of_N (Z.to_N (z mod 256))).

Fixpoint be_digits (length : nat) (n : Z) : list byte :=
  match length with
  | O => []
  | S k => byte_of_Z (n / 256 ^ Z.of_nat k) :: be_digits k n
  end.

(** [n.to_bytes(length, byteorder='big')]; [None] is the [OverflowError]
    raised for a negative [n] or one that needs more than [length] bytes. *)
Definition to_bytes (n : Z) (length : nat) : option (list byte) :=
  if (n <? 0) || (256 ^ Z.of_nat length <=? n) then None
  else Some (be_digits length n).

(** [int.from_bytes(bs, 'big')] *)
Definition from_bytes (bs : list byte) : Z :=
  fold_left (fun acc b => acc * 256 + byte_to_Z b) bs 0.

(** Position designated by a list subscript [l[i]]: negative subscripts
    count from the end; [None] is the [IndexError]. *)
Definition index {A} (l : list A) (i : Z) : option nat :=
  let n := Z.of_nat (length l) in
  if (0 <=? i) && (i <? n) then Some (Z.to_nat i)
  else if (- n <=? i) && (i <? 0) then Some (Z.to_nat (n + i))
  else None.

(** [l[i]] *)
Definition getitem {A} (l : list A) (i : Z) : option A :=
  k ← index l i; l !! k.

(** [l[i] = v] *)
Definition setitem {A} (l : list A) (i : Z) (v : A) : option (list A) :=
  k ← index l i; Some (<[k := v]> l).

(** [l[start:stop]] for [0 <= start <= stop] *)
Definition slice {A} (l : list A) (start stop : nat) : list A :=
  take (stop - start) (drop start l).

End Py.

(** ** The assembler ([assembler.py]) *)

Module Assembler.

(** The [OPCODES] dictionary. *)
Definition OPCODES : list (string * Z) :=
  [("LOAD_CONST"%string, 57); ("READ_MEM"%string, 28);
   ("WRITE_MEM"%string, 61); ("LEQ"%string, 19)].

(** [OPCODES[mnemonic]]; [None] when [mnemonic not in OPCODES]. *)
Fixpoint dict_get (d : list (string * Z)) (key : string) : option Z :=
  match d with
  | [] => None
  | (k, v) :: d' => if String.eqb k key then Some v else dict_get d' key
  end.

(** The exceptions the assembler can meet, one constructor per raise site
    (or family of sites with the same message).  All but [OverflowError]
    are [ValueError]s. *)
Inductive exn :=
| UnknownMnemonic (line_num : nat) (mnemonic : string)
| OperandCount (line_num : nat) (mnemonic : string)
| InvalidLiteral (token : string)
| UnpackMismatch
| OperandOutOfRange (line_num : nat) (mnemonic : string) (fields : string)
| UnknownCommand (line_num : nat) (mnemonic : string)
| OverflowError.

Definition is_ValueError (e : exn) : bool :=
  match e with OverflowError => false | _ => true end.

(** One entry of the trace: [{'mnemonic': .., 'A': .., 'B': .., 'C': ..}],
    with ['D'] for the three-operand instructions. *)
Record log_entry := LogEntry {
  log_mnemonic : string;
  log_A : Z;
  log_B : Z;
  log_C : Z;
  log_D : option Z
}.

(** [map(int, operands)], consumed left to right. *)
Fixpoint map_int (operands : list string) : exn + list Z :=
  match operands with
  | [] => inr []
  | t :: ts =>
      match Py.int t with
      | None => inl (InvalidLiteral t)
      | Some v =>
          match map_int ts with
          | inl e => inl e
          | inr vs => inr (v :: vs)
          end
      end
  end.

(** [val < 0 or val > hi] *)
Definition out_of_range (val hi : Z) : bool := (val <? 0) || (val >? hi).

(** [instruction.to_bytes(width, byteorder='big')] followed by the
    [return encoded, log_entry]. *)
Definition emit (instruction : Z) (width : nat) (entry : log_entry)
  : exn + (list byte * log_entry) :=
  match Py.to_bytes instruction width with
  | None => inl OverflowError
  | Some encoded => inr (encoded, entry)
  end.

Definition encode_instruction (mnemonic : string) (operands : list string)
    (line_num : nat) : exn + (list byte * log_entry) :=
  match dict_get OPCODES mnemonic with
  | None => inl (UnknownMnemonic line_num mnemonic)
  | Some A =>
    if String.eqb mnemonic "LOAD_CONST" then
      if negb (length operands =? 2)%nat then inl (OperandCount line_num mnemonic)
      else match map_int operands with
      | inl e => inl e
      | inr [B; C] =>
          if out_of_range B (Z.shiftl 1 31 - 1) then
            inl (OperandOutOfRange line_num mnemonic "B")
          else if out_of_range C 31 then
            inl (OperandOutOfRange line_num mnemonic "C")
          else
            let instruction :=
              Z.lor (Z.lor (Z.shiftl (Z.land A 0x3F) 42)
                           (Z.shiftl (Z.land B 0x7FFFFFFF) 11))
                    (Z.shiftl (Z.land C 0x1F) 6) in
            emit instruction 6 (LogEntry mnemonic A B C None)
      | inr _ => inl UnpackMismatch
      end
    else if String.eqb mnemonic "READ_MEM" then
      if negb (length operands =? 2)%nat then inl (OperandCount line_num mnemonic)
      else match map_int operands with
      | inl e => inl e
      | inr [B; C] =>
          if out_of_range B 31 then
            inl (OperandOutOfRange line_num mnemonic "B")
          else if out_of_range C 31 then
            inl (OperandOutOfRange line_num mnemonic "C")
          else
            let instruction :=
              Z.lor (Z.lor (Z.shiftl (Z.land A 0x3F) 10)
                           (Z.shiftl (Z.land B 0x1F) 5))
                    (Z.land C 0x1F) in
            emit instruction 2 (LogEntry mnemonic A B C None)
      | inr _ => inl UnpackMismatch
      end
    else if String.eqb mnemonic "WRITE_MEM" then
      if negb (length operands =? 3)%nat then inl (OperandCount line_num mnemonic)
      else match map_int operands with
      | inl e => inl e
      | inr [B; C; D] =>
          if existsb (fun val => out_of_range val 31) [B; C; D] then
            inl (OperandOutOfRange line_num mnemonic "B, C, D")
          else
            let instruction :=
              Z.lor (Z.lor (Z.lor (Z.shiftl (Z.land A 0x3F) 18)
                                  (Z.shiftl (Z.land B 0x1F) 13))
                           (Z.shiftl (Z.land C 0x1F) 8))
                    (Z.shiftl (Z.land D 0x1F) 3) in
            emit instruction 3 (LogEntry mnemonic A B C (Some D))
      | inr _ => inl UnpackMismatch
      end
    else if String.eqb mnemonic "LEQ" then
      if negb (length operands =? 3)%nat then inl (OperandCount line_num mnemonic)
      else match map_int operands with
      | inl e => inl e
      | inr [B; C; D] =>
          if existsb (fun val => out_of_range val 31) [B; C; D] then
            inl (OperandOutOfRange line_num mnemonic "B, C, D")
          else
            let instruction :=
              Z.lor (Z.lor (Z.lor (Z.shiftl (Z.land A 0x3F) 18)
                                  (Z.shiftl (Z.land B 0x1F) 13))
                           (Z.shiftl (Z.land C 0x1F) 8))
                    (Z.shiftl (Z.land D 0x1F) 3) in
            emit instruction 3 (LogEntry mnemonic A B C (Some D))
      | inr _ => inl UnpackMismatch
      end
    else inl (UnknownCommand line_num mnemonic)
  end.

(** [f.readlines()] on a file opened in text mode: lines keep their
    terminator, and CR and CR LF are read as LF (universal newlines). *)
Fixpoint readlines_from (cur : string) (s : string) : list string :=
  let nl := String "010"%char EmptyString in
  match s with
  | EmptyString => match cur with EmptyString => [] | _ => [cur] end
  | String c s' =>
      if Ascii.eqb c "010"%char then (cur ++ nl)%string :: readlines_from EmptyString s'
      else if Ascii.eqb c "013"%char then
        match s' with
        | String "010"%char s'' => (cur ++ nl)%string :: readlines_from EmptyString s''
        | _ => (cur ++ nl)%string :: readlines_from EmptyString s'
        end
      else readlines_from (cur ++ String c EmptyString) s'
  end.

Definition readlines (text : string) : list string :=
  readlines_from EmptyString text.

(** What one line of the source text holds once the comment and the
    surrounding whitespace are removed: [None] for a blank line, else the
    upper-cased mnemonic and the operand tokens. *)
Definition tokenize (line : string) : option (string * list string) :=
  match Py.strip (Py.split1_head "#" line) with
  | EmptyString => None
  | line' =>
      let tokens := Py.re_split_ws line' in
      Some (Py.upper (hd EmptyString tokens), tl tokens)
  end.

(** What a message on the error stream is about. *)
Inductive diagnostic :=
| Reported (line_num : nat) (ve : exn)   (* the [except ValueError] handler *)
| Traceback (e : exn).                   (* an exception nobody caught *)

(** What a run of the assembler leaves behind: the two output files
    ([None]: never opened for writing), the error stream and the exit
    status. *)
Record effects := Effects {
  binary_file : option (list byte);
  log_file : option (list (nat * log_entry));
  stderr : list diagnostic;
  exit_status : Z
}.

(** The loop [for line_num, line in enumerate(lines, 1)] and the two writes
    after it.  The trace key ['instruction_<line_num>'] is kept as
    [line_num]. *)
Fixpoint assemble_loop (lines : list string) (line_num : nat)
    (binary_output : list byte) (log_output : list (nat * log_entry)) : effects :=
  match lines with
  | [] => Effects (Some binary_output) (Some log_output) [] 0
  | line :: rest =>
      match tokenize line with
      | None => assemble_loop rest (S line_num) binary_output log_output
      | Some (mnemonic, operands) =>
          match encode_instruction mnemonic operands line_num with
          | inr (encoded, entry) =>
              match encoded with
              | [] => assemble_loop rest (S line_num) binary_output log_output
              | _ => assemble_loop rest (S line_num) (binary_output ++ encoded)
                       (log_output ++ [(line_num, entry)])
              end
          | inl e =>
              if is_ValueError e then Effects None None [Reported line_num e] 1
              else Effects None None [Traceback e] 1
          end
      end
  end.

(** [assemble], from the decoded text of the input file. *)
Definition assemble (text : string) : effects :=
  assemble_loop (readlines text) 1 [] [].

End Assembler.

(** ** The interpreter ([interpreter.py]) *)

Module Interpreter.

Record VirtualMachine := VM {
  registers : list Z;
  memory : list Z;
  program : list byte;
  pc : nat
}.

(** [VirtualMachine(memory_size)] *)
Definition init (memory_size : nat) : VirtualMachine :=
  VM (replicate 32 0) (replicate memory_size 0) [] 0.

(** [vm.load_program(binary_data)] *)
Definition load_program (vm : VirtualMachine) (binary_data : list byte)
  : VirtualMachine :=
  VM (registers vm) (memory vm) binary_data (pc vm).

(** The exceptions of the interpreter: the three [ValueError] messages of
    [execute], the two of [parse_memory_range], and the [IndexError] of a
    list subscript. *)
Inductive exn :=
| NotEnoughBytes (mnemonic : string)
| AddressOutsideMemory (addr : Z)
| UnknownOpcode (A : Z) (at_pc : nat)
| IndexError
| BadRangeFormat
| InvalidLiteral (token : string)
| BadRange.

(** A decoded instruction: the fields [execute] extracts for each opcode. *)
Inductive instr :=
| LOAD_CONST (B C : Z)
| READ_MEM (B C : Z)
| WRITE_MEM (B C D : Z)
| LEQ (B C D : Z).

(** The byte width [execute] asks for, and advances [pc] by. *)
Definition width (i : instr) : nat :=
  match i with
  | LOAD_CONST _ _ => 6
  | READ_MEM _ _ => 2
  | WRITE_MEM _ _ _ | LEQ _ _ _ => 3
  end.

(** [(instr_val >> shift) & mask] *)
Definition field (instr_val shift mask : Z) : Z :=
  Z.land (Z.shiftr instr_val shift) mask.

(** The fetch and decode half of one iteration of [execute]: the opcode
    is read from the top six bits of the byte at [pc], the length of the
    image is checked against the opcode's width, and the fields are cut
    out of the big-endian value of the slice. *)
Definition decode (program : list byte) (pc : nat) : exn + instr :=
  match program !! pc with
  | None => inl IndexError
  | Some current_byte =>
      let A := Z.shiftr (Z.land (Py.byte_to_Z current_byte) 0xFC) 2 in
      if A =? 57 then
        if (length program <? pc + 6)%nat then inl (NotEnoughBytes "LOAD_CONST")
        else
          let instr_val := Py.from_bytes (Py.slice program pc (pc + 6)) in
          inr (LOAD_CONST (field instr_val 11 0x7FFFFFFF) (field instr_val 6 0x1F))
      else if A =? 28 then
        if (length program <? pc + 2)%nat then inl (NotEnoughBytes "READ_MEM")
        else
          let instr_val := Py.from_bytes (Py.slice program pc (pc + 2)) in
          inr (READ_MEM (field instr_val 5 0x1F) (Z.land instr_val 0x1F))
      else if A =? 61 then
        if (length program <? pc + 3)%nat then inl (NotEnoughBytes "WRITE_MEM")
        else
          let instr_val := Py.from_bytes (Py.slice program pc (pc + 3)) in
          inr (WRITE_MEM (field instr_val 13 0x1F) (field instr_val 8 0x1F)
                         (field instr_val 3 0x1F))
      else if A =? 19 then
        if (length program <? pc + 3)%nat then inl (NotEnoughBytes "LEQ")
        else
          let instr_val := Py.from_bytes (Py.slice program pc (pc + 3)) in
          inr (LEQ (field instr_val 13 0x1F) (field instr_val 8 0x1F)
                   (field instr_val 3 0x1F))
      else inl (UnknownOpcode A pc)
  end.

(** One iteration of the loop ends either with the state to go on from or
    with an exception, next to the state as it is when it is raised. *)
Inductive outcome :=
| Continue (vm : VirtualMachine)
| Raise (e : exn) (vm : VirtualMachine).

(** A list subscript inside the loop body. *)
Definition subscript {A} (vm : VirtualMachine) (o : option A)
    (k : A -> outcome) : outcome :=
  match o with
  | None => Raise IndexError vm
  | Some a => k a
  end.

Notation "x ← o 'within' vm ; k" := (subscript vm o (fun x => k))
  (at level 20, o at level 100, vm at level 0, k at level 200, only parsing).

(** [addr < 0 or addr >= len(self.memory)] *)
Definition outside (vm : VirtualMachine) (addr : Z) : bool :=
  (addr <? 0) || (addr >=? Z.of_nat (length (memory vm))).

(** The execute half of one iteration: the effect of a decoded
    instruction on registers and memory, then [self.pc += width]. *)
Definition apply (i : instr) (vm : VirtualMachine) : outcome :=
  match i with
  | LOAD_CONST B C =>
      regs ← Py.setitem (registers vm) C B within vm;
      Continue (VM regs (memory vm) (program vm) (pc vm + 6))
  | READ_MEM B C =>
      addr ← Py.getitem (registers vm) C within vm;
      if outside vm addr then Raise (AddressOutsideMemory addr) vm
      else
        v ← Py.getitem (memory vm) addr within vm;
        regs ← Py.setitem (registers vm) B v within vm;
        Continue (VM regs (memory vm) (program vm) (pc vm + 2))
  | WRITE_MEM B C D =>
      base_addr ← Py.getitem (registers vm) C within vm;
      let addr := base_addr + D in
      val ← Py.getitem (registers vm) B within vm;
      if outside vm addr then Raise (AddressOutsideMemory addr) vm
      else
        mem ← Py.setitem (memory vm) addr val within vm;
        Continue (VM (registers vm) mem (program vm) (pc vm + 3))
  | LEQ B C D =>
      val1 ← Py.getitem (registers vm) B within vm;
      val2 ← Py.getitem (registers vm) D within vm;
      regs ← Py.setitem (registers vm) C (if val1 <=? val2 then 1 else 0) within vm;
      Continue (VM regs (memory vm) (program vm) (pc vm + 3))
  end.

(** The body of [while self.pc < len(self.program)]. *)
Definition step (vm : VirtualMachine) : outcome :=
  match decode (program vm) (pc vm) with
  | inl e => Raise e vm
  | inr i => apply i vm
  end.

(** How a call of [execute] ends. *)
Inductive run :=
| Halted (vm : VirtualMachine)              (* the loop condition failed *)
| Raised (e : exn) (vm : VirtualMachine)    (* an exception left the loop *)
| OutOfFuel (vm : VirtualMachine).          (* the bound on iterations was hit *)

(** [execute], with a bound on the number of iterations. *)
Fixpoint execute_fuel (fuel : nat) (vm : VirtualMachine) : run :=
  if (pc vm <? length (program vm))%nat then
    match fuel with
    | O => OutOfFuel vm
    | S fuel' =>
        match step vm with
        | Continue vm' => execute_fuel fuel' vm'
        | Raise e vm' => Raised e vm'
        end
    end
  else Halted vm.

(** [execute]: every iteration consumes at least one byte of the image, so
    its length bounds the number of iterations ([execute_terminates]). *)
Definition execute (vm : VirtualMachine) : run :=
  execute_fuel (length (program vm)) vm.

(** [self.memory[start:end + 1]] *)
Definition get_memory_slice (vm : VirtualMachine) (start end_ : Z) : list Z :=
  Py.slice (memory vm) (Z.to_nat start) (Z.to_nat (end_ + 1)).

(** The longest prefix of decimal digits, and what follows it. *)
Fixpoint span_digits (s : string) : string * string :=
  match s with
  | EmptyString => (EmptyString, EmptyString)
  | String c s' =>
      if Py.isdigit c then let (d, r) := span_digits s' in (String c d, r)
      else (EmptyString, s)
  end.

(** [re.match(r'^(\d+):(\d+)$', s)]: the two groups of a match.  [\d+] is
    greedy and nothing after it can match a digit, so the match, when
    there is one, takes the two maximal runs of digits; [$] matches at the
    end of the string and also just before a newline that ends it. *)
Definition match_range (s : string) : option (string * string) :=
  let (g1, r1) := span_digits s in
  match g1, r1 with
  | String _ _, String ":"%char r2 =>
      let (g2, r3) := span_digits r2 in
      match g2, r3 with
      | String _ _, EmptyString => Some (g1, g2)
      | String _ _, String "010"%char EmptyString => Some (g1, g2)
      | _, _ => None
      end
  | _, _ => None
  end.

Definition parse_memory_range (memory_range_str : string) (memory_size : Z)
  : exn + (Z * Z) :=
  match match_range memory_range_str with
  | None => inl BadRangeFormat
  | Some (g1, g2) =>
      match Py.int g1, Py.int g2 with
      | Some start, Some end_ =>
          if (start <? 0) || (end_ >=? memory_size) || (start >? end_)
          then inl BadRange
          else inr (start, end_)
      | None, _ => inl (InvalidLiteral g1)
      | _, None => inl (InvalidLiteral g2)
      end
  end.

(** What a message on the error stream is about. *)
Inductive diagnostic :=
| FileNotFound
| Error (e : exn).

(** What a run of the interpreter leaves behind: the result document
    ([None]: never opened for writing), the error stream and the exit
    status ([None]: the run did not end). *)
Record effects := Effects {
  result_file : option (list Z);
  stderr : list diagnostic;
  exit_status : option Z
}.

(** [main], from the content of the input file ([None]: no such file) and
    the [--range] argument. *)
Definition main (input : option (list byte)) (range : string) : effects :=
  match input with
  | None => Effects None [FileNotFound] (Some 1)
  | Some binary_data =>
      let vm := load_program (init 256) binary_data in
      match execute vm with
      | OutOfFuel _ => Effects None [] None
      | Raised e _ => Effects None [Error e] (Some 1)
      | Halted vm' =>
          match parse_memory_range range (Z.of_nat (length (memory vm'))) with
          | inl e => Effects None [Error e] (Some 1)
          | inr (start, end_) =>
              Effects (Some (get_memory_slice vm' start end_)) [] (Some 0)
          end
      end
  end.

End Interpreter.

(** ** The instruction table

    The table of the specification, section 4.1, over the decoded
    instructions of the interpreter: an instruction stands for an opcode
    together with its operand tuple. *)

Module Codec.
Import Interpreter.

Definition mnemonic_of (i : instr) : string :=
  match i with
  | LOAD_CONST _ _ => "LOAD_CONST"
  | READ_MEM _ _ => "READ_MEM"
  | WRITE_MEM _ _ _ => "WRITE_MEM"
  | LEQ _ _ _ => "LEQ"
  end.

Definition operand_values (i : instr) : list Z :=
  match i with
  | LOAD_CONST B C | READ_MEM B C => [B; C]
  | WRITE_MEM B C D | LEQ B C D => [B; C; D]
  end.

(** A value fits a field of [w] bits. *)
Definition fits_width (w v : Z) : Prop := 0 <= v <= 2 ^ w - 1.

(** Every operand fits the width the table declares for it. *)
Definition fits (i : instr) : Prop :=
  match i with
  | LOAD_CONST B C => fits_width 31 B /\ fits_width 5 C
  | READ_MEM B C => fits_width 5 B /\ fits_width 5 C
  | WRITE_MEM B C D | LEQ B C D =>
      fits_width 5 B /\ fits_width 5 C /\ fits_width 5 D
  end.

(** Numeric code of an opcode to its mnemonic and byte width. *)
Definition declared (A : Z) : option (string * nat) :=
  if A =? 57 then Some ("LOAD_CONST"%string, 6%nat)
  else if A =? 28 then Some ("READ_MEM"%string, 2%nat)
  else if A =? 61 then Some ("WRITE_MEM"%string, 3%nat)
  else if A =? 19 then Some ("LEQ"%string, 3%nat)
  else None.

(** The fields laid out as the table has them, most significant first,
    with the unused trailing bits zero. *)
Definition packed (i : instr) : Z :=
  match i with
  | LOAD_CONST B C => 57 * 2 ^ 42 + B * 2 ^ 11 + C * 2 ^ 6
  | READ_MEM B C => 28 * 2 ^ 10 + B * 2 ^ 5 + C
  | WRITE_MEM B C D => 61 * 2 ^ 18 + B * 2 ^ 13 + C * 2 ^ 8 + D * 2 ^ 3
  | LEQ B C D => 19 * 2 ^ 18 + B * 2 ^ 13 + C * 2 ^ 8 + D * 2 ^ 3
  end.

(** The trace entry of an instruction: mnemonic, numeric code, operands. *)
Definition entry_of (i : instr) : Assembler.log_entry :=
  match i with
  | LOAD_CONST B C => Assembler.LogEntry "LOAD_CONST" 57 B C None
  | READ_MEM B C => Assembler.LogEntry "READ_MEM" 28 B C None
  | WRITE_MEM B C D => Assembler.LogEntry "WRITE_MEM" 61 B C (Some D)
  | LEQ B C D => Assembler.LogEntry "LEQ" 19 B C (Some D)
  end.

(** The leading six bits of a byte. *)
Definition discriminant (b : byte) : Z := Py.byte_to_Z b / 4.

End Codec.

(** ** Machine states, runs and source texts *)

Module Machine.
Import Interpreter.

(** The register file has the 32 slots [__init__] gives it. *)
Definition well_formed (vm : VirtualMachine) : Prop :=
  length (registers vm) = 32%nat.

(** A value of 31 bits. *)
Definition is_uint31 (v : Z) : Prop := 0 <= v <= 2 ^ 31 - 1.

(** The states the loop of [execute] goes through when started in [vm0]. *)
Inductive reachable (vm0 : VirtualMachine) : VirtualMachine -> Prop :=
| reachable_start : reachable vm0 vm0
| reachable_step vm vm' :
    reachable vm0 vm -> step vm = Continue vm' -> reachable vm0 vm'.

(** Registers and memory hold 31-bit values only. *)
Definition values_in_range (vm : VirtualMachine) : Prop :=
  Forall is_uint31 (registers vm) /\ Forall is_uint31 (memory vm).

(** The memory address [addr] an instruction computes, if it computes
    one: [registers[C]] for READ_MEM, [registers[C] + D] for WRITE_MEM. *)
Definition computed_address (vm : VirtualMachine) (i : instr) : option Z :=
  match i with
  | READ_MEM _ C => Py.getitem (registers vm) C
  | WRITE_MEM _ C D => base_addr ← Py.getitem (registers vm) C; Some (base_addr + D)
  | LOAD_CONST _ _ | LEQ _ _ _ => None
  end.

(** The state a fresh interpreter starts [execute] in. *)
Definition fresh (memory_size : nat) (image : list byte) : VirtualMachine :=
  load_program (init memory_size) image.

(** A source text of the given lines, each ended by a line feed. *)
Fixpoint source (lines : list string) : string :=
  match lines with
  | [] => EmptyString
  | l :: ls => (l ++ String "010"%char (source ls))%string
  end.

(** The error, if any, that line number [line_num] of a source text runs
    into. *)
Definition line_error (line : string) (line_num : nat) : option Assembler.exn :=
  match Assembler.tokenize line with
  | None => None
  | Some (mnemonic, operands) =>
      match Assembler.encode_instruction mnemonic operands line_num with
      | inl e => Some e
      | inr _ => None
      end
  end.

(** The state [execute] is left in when the assembled [text] is run on a
    fresh interpreter with 256 cells of memory; [None] when the text does
    not assemble or the run raises. *)
Definition assemble_and_run (text : string) : option VirtualMachine :=
  match Assembler.binary_file (Assembler.assemble text) with
  | None => None
  | Some image =>
      match execute (fresh 256 image) with
      | Halted vm => Some vm
      | _ => None
      end
  end.

End Machine.

(** ** Memory-range requests, in the words of the specification *)

Module Request.

Fixpoint all_digits (s : string) : bool :=
  match s with
  | EmptyString => true
  | String c s' => Py.isdigit c && all_digits s'
  end.

(** A non-negative decimal integer: one digit or more, nothing else. *)
Definition is_decimal (s : string) : bool :=
  match s with
  | EmptyString => false
  | _ => all_digits s
  end.

(** The parts before and after the first colon. *)
Fixpoint split_colon (s : string) : option (string * string) :=
  match s with
  | EmptyString => None
  | String c s' =>
      if Ascii.eqb c ":"%char then Some (EmptyString, s')
      else match split_colon s' with
           | None => None
           | Some (a, b) => Some (String c a, b)
           end
  end.

Definition line_feed : string := String "010"%char EmptyString.

(** "A string of the form [start:end]", both decimal integers. *)
Definition well_formed (s : string) : bool :=
  match split_colon s with
  | None => false
  | Some (a, b) => is_decimal a && is_decimal b
  end.

End Request.

(** ** Example states and source texts *)

Module Examples.
Import Interpreter.

(** A machine about to execute [LEQ 0 2 1], registers and memory zero. *)
Definition before_leq : VirtualMachine :=
  VM (replicate 32 0) (replicate 256 0) [x4c; x02; x08] 0.

(** A machine about to execute [WRITE_MEM 0 0 3] with 5 in register 0: the
    address is 8. *)
Definition before_write : VirtualMachine :=
  VM (<[0%nat := 5]> (replicate 32 0)) (replicate 256 0) [xf4; x00; x18] 0.

(** A machine about to execute [WRITE_MEM 0 1 31] with 250 in register 1:
    the address is 281. *)
Definition before_far_write : VirtualMachine :=
  VM (<[1%nat := 250]> (replicate 32 0)) (replicate 256 0) [xf4; x01; xf8] 0.

(** An image cut after four bytes of a LOAD_CONST. *)
Definition truncated : VirtualMachine :=
  VM (replicate 32 0) (replicate 256 0) [xe4; x00; x00; x00] 0.

(** The image of [LOAD_CONST 10 0], and the machine after executing it. *)
Definition load_image : list byte := [xe4; x00; x00; x00; x50; x00].

Definition after_load : VirtualMachine :=
  VM (<[0%nat := 10]> (replicate 32 0)) (replicate 256 0) load_image 6.

(** A source text whose third line names register 32. *)
Definition bad_text : string :=
  Machine.source ["LOAD_CONST 10 0"; "  # the limit"; "load_const 20 32";
                  "LEQ 0 2 1"]%string.

(** A request with a line feed after [0:0]. *)
Definition newline_request : string :=
  String.append "0:0" Request.line_feed.

(** Scenario 1 of the specification. *)
Definition scenario_1 : string :=
  Machine.source ["LOAD_CONST 10 0"; "LOAD_CONST 20 1"; "LEQ 0 2 1"]%string.

(** The first two lines of scenario 2 of the specification. *)
Definition scenario_2 : string :=
  Machine.source ["LOAD_CONST 5 0"; "WRITE_MEM 0 0 3"]%string.

End Examples.

(** ** Programs: instruction sequences, their images and their runs *)

Module Program.
Import Interpreter.

(** The number of operands [encode_instruction] asks of a mnemonic. *)
Definition arity (mnemonic : string) : nat :=
  if String.eqb mnemonic "LOAD_CONST" || String.eqb mnemonic "READ_MEM"
  then 2%nat else 3%nat.

(** The trailing bits of an instruction that carry no field. *)
Definition unused_bits (i : instr) : Z :=
  match i with
  | LOAD_CONST _ _ => 6
  | READ_MEM _ _ => 0
  | WRITE_MEM _ _ _ | LEQ _ _ _ => 3
  end.

(** The exceptions [execute] raises by a [raise] of its own. *)
Definition raised_by_execute (e : exn) : Prop :=
  match e with
  | NotEnoughBytes _ | AddressOutsideMemory _ | UnknownOpcode _ _ => True
  | IndexError | BadRangeFormat | InvalidLiteral _ | BadRange => False
  end.

(** The image of a sequence of instructions: the big-endian digits of
    their packed fields, one after the other. *)
Definition image (instrs : list instr) : list byte :=
  flat_map (fun i => Py.be_digits (width i) (Codec.packed i)) instrs.

(** The effects of a sequence of instructions, one after the other, up to
    the first that raises. *)
Fixpoint run_instrs (instrs : list instr) (vm : VirtualMachine) : run :=
  match instrs with
  | [] => Halted vm
  | i :: rest =>
      match apply i vm with
      | Continue vm' => run_instrs rest vm'
      | Raise e vm' => Raised e vm'
      end
  end.

(** The lines of a source text that hold an instruction, each with its
    1-based number, its mnemonic and its operand tokens. *)
Fixpoint instruction_lines (lines : list string) (line_num : nat)
  : list (nat * (string * list string)) :=
  match lines with
  | [] => []
  | line :: rest =>
      match Assembler.tokenize line with
      | None => instruction_lines rest (S line_num)
      | Some t => (line_num, t) :: instruction_lines rest (S line_num)
      end
  end.

(** A numbered instruction is what a numbered line of tokens reads as. *)
Definition reads_as (l : nat * (string * list string)) (o : nat * instr) : Prop :=
  fst l = fst o /\
  fst (snd l) = Codec.mnemonic_of (snd o) /\
  Assembler.map_int (snd (snd l)) = inr (Codec.operand_values (snd o)).

(** The trace of numbered instructions. *)
Definition trace (outs : list (nat * instr)) : list (nat * Assembler.log_entry) :=
  map (fun o => (fst o, Codec.entry_of (snd o))) outs.


End Program.

(** ** More example states *)

Module Samples.
Import Interpreter.

(** [LOAD_CONST 10 0] with all six unused bits set. *)
Definition noisy_load_image : list byte := [xe4; x00; x00; x00; x50; x3f].


(** A machine at a byte that starts no instruction. *)
Definition at_zero_byte : VirtualMachine :=
  VM (replicate 32 0) (replicate 256 0) [x00] 0.

(** The image the assembler writes for scenario 1. *)
Definition scenario_1_image : list byte :=
  [xe4; x00; x00; x00; x50; x00; xe4; x00; x00; x00; xa0; x40; x4c; x02; x08].

End Samples.

(** * Properties *)

(** ** Bytes and big-endian integers *)

Section Bytes.

Lemma byte_to_Z_range (b : byte) : 0 <= Py.byte_to_Z b < 256.
Proof.
  unfold Py.byte_to_Z. pose proof (Byte.to_N_bounded b) as Hb. lia.
Qed.

Lemma byte_to_of_Z (z : Z) : Py.byte_to_Z (Py.byte_of_Z z) = z mod 256.
Proof.
  unfold Py.byte_to_Z, Py.byte_of_Z.
  assert (Hz : 0 <= z mod 256 < 256) by (apply Z.mod_pos_bound; lia).
  destruct (Byte.of_N (Z.to_N (z mod 256))) as [b|] eqn:E; simpl.
  - apply Byte.to_of_N in E. rewrite E. lia.
  - apply Byte.of_N_None_iff in E. lia.
Qed.

Lemma length_be_digits (k : nat) (n : Z) : length (Py.be_digits k n) = k.
Proof. induction k; simpl; congruence. Qed.

Lemma from_bytes_acc (bs : list byte) (acc : Z) :
  fold_left (fun a b => a * 256 + Py.byte_to_Z b) bs acc
  = acc * 256 ^ Z.of_nat (length bs) + Py.from_bytes bs.
Proof.
  unfold Py.from_bytes. revert acc.
  induction bs as [|b bs IH]; intros acc; simpl fold_left.
  - simpl. lia.
  - rewrite (IH (acc * 256 + _)), (IH (0 * 256 + _)).
    rewrite length_cons, Nat2Z.inj_succ, Z.pow_succ_r by lia. ring.
Qed.

Lemma from_bytes_cons (b : byte) (bs : list byte) :
  Py.from_bytes (b :: bs)
  = Py.byte_to_Z b * 256 ^ Z.of_nat (length bs) + Py.from_bytes bs.
Proof.
  unfold Py.from_bytes at 1. simpl fold_left. rewrite from_bytes_acc. ring.
Qed.

(** Reading back the [k] big-endian digits of [n] gives [n] modulo
    [256 ^ k]. *)
Lemma from_bytes_be_digits (k : nat) (n : Z) :
  Py.from_bytes (Py.be_digits k n) = n mod 256 ^ Z.of_nat k.
Proof.
  induction k as [|k IH].
  - simpl. now rewrite Z.mod_1_r.
  - cbn [Py.be_digits]. rewrite from_bytes_cons, length_be_digits, IH, byte_to_of_Z.
    rewrite Nat2Z.inj_succ, Z.pow_succ_r by lia.
    assert (0 < 256 ^ Z.of_nat k) by (apply Z.pow_pos_nonneg; lia).
    rewrite (Z.mul_comm 256), Z.rem_mul_r by lia. ring.
Qed.

(** [int.from_bytes(n.to_bytes(k, 'big'), 'big') == n] *)
Lemma from_to_bytes (n : Z) (k : nat) (bs : list byte) :
  Py.to_bytes n k = Some bs -> Py.from_bytes bs = n /\ length bs = k.
Proof.
  unfold Py.to_bytes. intros H.
  destruct ((n <? 0) || (256 ^ Z.of_nat k <=? n)) eqn:E; [discriminate|].
  injection H as <-. apply orb_false_elim in E as [E1 E2].
  rewrite from_bytes_be_digits, length_be_digits.
  split; [apply Z.mod_small; lia | reflexivity].
Qed.

(** The opcode discriminant: for a byte, masking with [0xFC] and shifting
    right by two is division by four. *)
Lemma opcode_of_byte (b : byte) :
  Z.shiftr (Z.land (Py.byte_to_Z b) 0xFC) 2 = Py.byte_to_Z b / 4.
Proof. destruct b; reflexivity. Qed.

End Bytes.

(** ** Bit fields *)

Section BitFields.

(** A mask of [k] ones leaves a value below [2 ^ k] as it is. *)
Lemma land_ones_small (x k : Z) :
  0 <= k -> 0 <= x < 2 ^ k -> Z.land x (Z.ones k) = x.
Proof. intros Hk Hx. rewrite Z.land_ones by lia. apply Z.mod_small; lia. Qed.

(** A field below bit [n] and a value that is a multiple of [2 ^ n] have
    no bit in common: or-ing them adds them. *)
Lemma lor_disjoint (hi lo n : Z) :
  0 <= n -> 0 <= lo < 2 ^ n -> Z.lor (hi * 2 ^ n) lo = hi * 2 ^ n + lo.
Proof.
  intros Hn Hlo. rewrite <- Z.shiftl_mul_pow2 by lia.
  assert (Hland : Z.land (Z.shiftl hi n) lo = 0).
  { apply Z.bits_inj'. intros i Hi.
    rewrite Z.land_spec, Z.bits_0.
    destruct (Z.lt_ge_cases i n) as [Hlt|Hge].
    - rewrite Z.shiftl_spec_low by lia. reflexivity.
    - destruct (Z.eq_dec lo 0) as [->|Hne].
      + rewrite Z.bits_0. apply andb_false_r.
      + assert (Hlog : Z.log2 lo < n) by (apply Z.log2_lt_pow2; lia).
        rewrite (Z.bits_above_log2 lo i) by lia. apply andb_false_r. }
  rewrite <- Z.lxor_lor by exact Hland.
  now rewrite <- Z.add_nocarry_lxor by exact Hland.
Qed.

Lemma field_spec (v shift k : Z) :
  0 <= shift -> 0 <= k ->
  Interpreter.field v shift (Z.ones k) = (v / 2 ^ shift) mod 2 ^ k.
Proof.
  intros Hs Hk. unfold Interpreter.field.
  now rewrite Z.land_ones, Z.shiftr_div_pow2 by lia.
Qed.

Lemma field_range (v shift k : Z) :
  0 <= shift -> 0 <= k -> 0 <= Interpreter.field v shift (Z.ones k) <= 2 ^ k - 1.
Proof.
  intros Hs Hk. rewrite field_spec by lia.
  assert (0 < 2 ^ k) by (apply Z.pow_pos_nonneg; lia).
  pose proof (Z.mod_pos_bound (v / 2 ^ shift) (2 ^ k)). lia.
Qed.

Lemma land_ones_range (v k : Z) :
  0 <= k -> 0 <= Z.land v (Z.ones k) <= 2 ^ k - 1.
Proof.
  intros Hk. rewrite Z.land_ones by lia.
  assert (0 < 2 ^ k) by (apply Z.pow_pos_nonneg; lia).
  pose proof (Z.mod_pos_bound v (2 ^ k)). lia.
Qed.

End BitFields.

(** The masks of the source as runs of ones. *)
Ltac masks_as_ones :=
  change 0x3F with (Z.ones 6); change 0x1F with (Z.ones 5);
  change 0x7FFFFFFF with (Z.ones 31).

(** ** The encoder, mnemonic by mnemonic *)

Section Encoder.
Import Assembler.

Lemma map_int_length operands vs :
  map_int operands = inr vs -> length operands = length vs.
Proof.
  revert vs. induction operands as [|t ts IH]; intros vs H; simpl in H.
  - now injection H as <-.
  - destruct (Py.int t); [|discriminate].
    destruct (map_int ts) as [e|vs']; [discriminate|].
    injection H as <-. simpl. f_equal. now apply IH.
Qed.

Lemma in_range_iff val hi : out_of_range val hi = false <-> 0 <= val <= hi.
Proof.
  unfold out_of_range.
  rewrite orb_false_iff, Z.ltb_ge, Z.gtb_ltb, Z.ltb_ge. tauto.
Qed.

Lemma encode_LOAD_CONST operands line_num B C :
  map_int operands = inr [B; C] ->
  encode_instruction "LOAD_CONST" operands line_num =
    if out_of_range B (2 ^ 31 - 1) then
      inl (OperandOutOfRange line_num "LOAD_CONST" "B")
    else if out_of_range C 31 then
      inl (OperandOutOfRange line_num "LOAD_CONST" "C")
    else emit (Z.lor (Z.lor (Z.shiftl (Z.land 57 0x3F) 42)
                            (Z.shiftl (Z.land B 0x7FFFFFFF) 11))
                     (Z.shiftl (Z.land C 0x1F) 6)) 6
              (LogEntry "LOAD_CONST" 57 B C None).
Proof.
  intros H. unfold encode_instruction.
  change (dict_get OPCODES "LOAD_CONST") with (Some 57).
  rewrite String.eqb_refl, (map_int_length _ _ H), H. reflexivity.
Qed.

Lemma encode_READ_MEM operands line_num B C :
  map_int operands = inr [B; C] ->
  encode_instruction "READ_MEM" operands line_num =
    if out_of_range B 31 then inl (OperandOutOfRange line_num "READ_MEM" "B")
    else if out_of_range C 31 then inl (OperandOutOfRange line_num "READ_MEM" "C")
    else emit (Z.lor (Z.lor (Z.shiftl (Z.land 28 0x3F) 10)
                            (Z.shiftl (Z.land B 0x1F) 5))
                     (Z.land C 0x1F)) 2
              (LogEntry "READ_MEM" 28 B C None).
Proof.
  intros H. unfold encode_instruction.
  change (dict_get OPCODES "READ_MEM") with (Some 28).
  change (String.eqb "READ_MEM" "LOAD_CONST") with false. cbv iota.
  rewrite String.eqb_refl, (map_int_length _ _ H), H. reflexivity.
Qed.

Lemma encode_WRITE_MEM operands line_num B C D :
  map_int operands = inr [B; C; D] ->
  encode_instruction "WRITE_MEM" operands line_num =
    if existsb (fun val => out_of_range val 31) [B; C; D] then
      inl (OperandOutOfRange line_num "WRITE_MEM" "B, C, D")
    else emit (Z.lor (Z.lor (Z.lor (Z.shiftl (Z.land 61 0x3F) 18)
                                   (Z.shiftl (Z.land B 0x1F) 13))
                            (Z.shiftl (Z.land C 0x1F) 8))
                     (Z.shiftl (Z.land D 0x1F) 3)) 3
              (LogEntry "WRITE_MEM" 61 B C (Some D)).
Proof.
  intros H. unfold encode_instruction.
  change (dict_get OPCODES "WRITE_MEM") with (Some 61).
  change (String.eqb "WRITE_MEM" "LOAD_CONST") with false.
  change (String.eqb "WRITE_MEM" "READ_MEM") with false. cbv iota.
  rewrite String.eqb_refl, (map_int_length _ _ H), H. reflexivity.
Qed.

Lemma encode_LEQ operands line_num B C D :
  map_int operands = inr [B; C; D] ->
  encode_instruction "LEQ" operands line_num =
    if existsb (fun val => out_of_range val 31) [B; C; D] then
      inl (OperandOutOfRange line_num "LEQ" "B, C, D")
    else emit (Z.lor (Z.lor (Z.lor (Z.shiftl (Z.land 19 0x3F) 18)
                                   (Z.shiftl (Z.land B 0x1F) 13))
                            (Z.shiftl (Z.land C 0x1F) 8))
                     (Z.shiftl (Z.land D 0x1F) 3)) 3
              (LogEntry "LEQ" 19 B C (Some D)).
Proof.
  intros H. unfold encode_instruction.
  change (dict_get OPCODES "LEQ") with (Some 19).
  change (String.eqb "LEQ" "LOAD_CONST") with false.
  change (String.eqb "LEQ" "READ_MEM") with false.
  change (String.eqb "LEQ" "WRITE_MEM") with false. cbv iota.
  rewrite String.eqb_refl, (map_int_length _ _ H), H. reflexivity.
Qed.

(** The packed value as a sum, for operands that fit. *)

Ltac unmask :=
  masks_as_ones; rewrite !land_ones_small by (cbn; lia);
  rewrite ?Z.shiftl_mul_pow2 by lia.

Lemma pack_LOAD_CONST B C :
  0 <= B <= 2 ^ 31 - 1 -> 0 <= C <= 31 ->
  Z.lor (Z.lor (Z.shiftl (Z.land 57 0x3F) 42) (Z.shiftl (Z.land B 0x7FFFFFFF) 11))
        (Z.shiftl (Z.land C 0x1F) 6)
  = 57 * 2 ^ 42 + B * 2 ^ 11 + C * 2 ^ 6.
Proof.
  intros HB HC. unmask.
  rewrite (lor_disjoint 57 _ 42) by lia.
  replace (57 * 2 ^ 42 + B * 2 ^ 11) with ((57 * 2 ^ 31 + B) * 2 ^ 11) by ring.
  rewrite (lor_disjoint _ _ 11) by lia. ring.
Qed.

Lemma pack_READ_MEM B C :
  0 <= B <= 31 -> 0 <= C <= 31 ->
  Z.lor (Z.lor (Z.shiftl (Z.land 28 0x3F) 10) (Z.shiftl (Z.land B 0x1F) 5))
        (Z.land C 0x1F)
  = 28 * 2 ^ 10 + B * 2 ^ 5 + C.
Proof.
  intros HB HC. unmask.
  rewrite (lor_disjoint 28 _ 10) by lia.
  replace (28 * 2 ^ 10 + B * 2 ^ 5) with ((28 * 2 ^ 5 + B) * 2 ^ 5) by ring.
  rewrite (lor_disjoint _ _ 5) by lia. ring.
Qed.

Lemma pack_three A B C D :
  0 <= A <= 63 -> 0 <= B <= 31 -> 0 <= C <= 31 -> 0 <= D <= 31 ->
  Z.lor (Z.lor (Z.lor (Z.shiftl (Z.land A 0x3F) 18) (Z.shiftl (Z.land B 0x1F) 13))
               (Z.shiftl (Z.land C 0x1F) 8))
        (Z.shiftl (Z.land D 0x1F) 3)
  = A * 2 ^ 18 + B * 2 ^ 13 + C * 2 ^ 8 + D * 2 ^ 3.
Proof.
  intros HA HB HC HD. unmask.
  rewrite (lor_disjoint A _ 18) by lia.
  replace (A * 2 ^ 18 + B * 2 ^ 13) with ((A * 2 ^ 5 + B) * 2 ^ 13) by ring.
  rewrite (lor_disjoint _ _ 13) by lia.
  replace ((A * 2 ^ 5 + B) * 2 ^ 13 + C * 2 ^ 8)
    with ((A * 2 ^ 10 + B * 2 ^ 5 + C) * 2 ^ 8) by ring.
  rewrite (lor_disjoint _ _ 8) by lia. ring.
Qed.

(** A value that fits [k] bytes is emitted as its [k] big-endian digits. *)
Lemma emit_ok instruction k entry :
  0 <= instruction < 256 ^ Z.of_nat k ->
  emit instruction k entry = inr (Py.be_digits k instruction, entry).
Proof.
  intros H. unfold emit, Py.to_bytes.
  replace (_ || _) with false; [reflexivity|].
  symmetry. apply orb_false_intro; [apply Z.ltb_ge | apply Z.leb_gt]; lia.
Qed.

End Encoder.

(** ** The decoder, opcode by opcode *)

Section Decoder.
Import Interpreter Codec.

Lemma slice_middle {A} (pre enc post : list A) :
  Py.slice (pre ++ enc ++ post) (length pre) (length pre + length enc) = enc.
Proof.
  unfold Py.slice. rewrite drop_app_length.
  replace (length pre + length enc - length pre)%nat with (length enc) by lia.
  apply take_app_length.
Qed.

(** The opcode [decode] reads off an image that holds, at [length pre],
    the [S k] big-endian digits of [n]. *)
Lemma decode_head pre k n post :
  0 <= n < 256 ^ Z.of_nat (S k) ->
  exists b, (pre ++ Py.be_digits (S k) n ++ post) !! length pre = Some b /\
    Z.shiftr (Z.land (Py.byte_to_Z b) 0xFC) 2 = n / (4 * 256 ^ Z.of_nat k).
Proof.
  intros Hn. cbn [Py.be_digits]. eexists. split.
  - rewrite <- app_comm_cons. now apply list_lookup_middle.
  - rewrite opcode_of_byte, byte_to_of_Z.
    assert (Hp : 0 < 256 ^ Z.of_nat k) by (apply Z.pow_pos_nonneg; lia).
    rewrite Nat2Z.inj_succ, Z.pow_succ_r in Hn by lia.
    rewrite Z.mod_small.
    + rewrite Z.div_div by lia. f_equal. lia.
    + split; [apply Z.div_pos; lia|]. apply Z.div_lt_upper_bound; lia.
Qed.

(** [decode] on the [S k] digits of [n], whose leading six bits are the
    opcode [HA] names: the opcode is recognised, the image is long enough,
    and the slice reads back as [n]. *)
Ltac decode_digits pre post n k Hn HA :=
  unfold decode;
  let b := fresh "b" in
  destruct (decode_head pre k n post) as (b & -> & ->); [exact Hn|];
  match type of HA with
  | n / ?d = _ => change (4 * 256 ^ Z.of_nat k) with d
  end;
  rewrite HA; cbn [Z.eqb Pos.eqb];
  let Hs := fresh "Hs" in
  pose proof (slice_middle pre (Py.be_digits (S k) n) post) as Hs;
  rewrite length_be_digits in Hs; rewrite Hs, from_bytes_be_digits;
  rewrite !length_app, length_be_digits;
  replace (_ <? _)%nat with false by (symmetry; apply Nat.ltb_ge; lia);
  rewrite Z.mod_small by exact Hn; reflexivity.

Lemma decode_LOAD_CONST pre post n :
  0 <= n < 256 ^ Z.of_nat 6 -> n / 2 ^ 42 = 57 ->
  decode (pre ++ Py.be_digits 6 n ++ post) (length pre) =
  inr (LOAD_CONST (field n 11 0x7FFFFFFF) (field n 6 0x1F)).
Proof. intros Hn HA. decode_digits pre post n 5%nat Hn HA. Qed.

Lemma decode_READ_MEM pre post n :
  0 <= n < 256 ^ Z.of_nat 2 -> n / 2 ^ 10 = 28 ->
  decode (pre ++ Py.be_digits 2 n ++ post) (length pre) =
  inr (READ_MEM (field n 5 0x1F) (Z.land n 0x1F)).
Proof. intros Hn HA. decode_digits pre post n 1%nat Hn HA. Qed.

Lemma decode_WRITE_MEM pre post n :
  0 <= n < 256 ^ Z.of_nat 3 -> n / 2 ^ 18 = 61 ->
  decode (pre ++ Py.be_digits 3 n ++ post) (length pre) =
  inr (WRITE_MEM (field n 13 0x1F) (field n 8 0x1F) (field n 3 0x1F)).
Proof. intros Hn HA. decode_digits pre post n 2%nat Hn HA. Qed.

Lemma decode_LEQ pre post n :
  0 <= n < 256 ^ Z.of_nat 3 -> n / 2 ^ 18 = 19 ->
  decode (pre ++ Py.be_digits 3 n ++ post) (length pre) =
  inr (LEQ (field n 13 0x1F) (field n 8 0x1F) (field n 3 0x1F)).
Proof. intros Hn HA. decode_digits pre post n 2%nat Hn HA. Qed.

(** Whatever [decode] returns fits the field widths: every field is cut
    out by a mask. *)
Lemma decode_fits program pc i : decode program pc = inr i -> fits i.
Proof.
  unfold decode. intros H.
  destruct (program !! pc) as [b|]; [|discriminate].
  repeat match type of H with
  | (if ?c then _ else _) = _ => destruct c
  end; try discriminate; injection H as <-;
  masks_as_ones; unfold fits;
  repeat match goal with
  | |- fits_width _ _ /\ _ => split
  | |- fits_width _ (field _ _ _) => apply field_range; lia
  | |- fits_width _ (Z.land _ _) => apply land_ones_range; lia
  end.
Qed.

End Decoder.

(** ** Encoding and decoding agree *)

Section RoundTrip.
Import Assembler Interpreter Codec.

Lemma packed_range i : fits i -> 0 <= packed i < 256 ^ Z.of_nat (width i).
Proof.
  unfold fits, fits_width.
  destruct i; cbn [packed width]; intros H; lia.
Qed.

(** Operands that fit are encoded as the big-endian digits of the packed
    fields, and traced as they are. *)
Lemma encode_fits i operands line_num :
  fits i -> map_int operands = inr (operand_values i) ->
  encode_instruction (mnemonic_of i) operands line_num
  = inr (Py.be_digits (width i) (packed i), entry_of i).
Proof.
  intros Hfit Hops. pose proof (packed_range i Hfit) as Hn. revert Hfit Hops Hn.
  unfold fits, fits_width.
  destruct i as [B C|B C|B C D|B C D];
    cbn [operand_values mnemonic_of width packed entry_of]; intros Hfit Hops Hn.
  - rewrite (encode_LOAD_CONST _ _ _ _ Hops).
    rewrite (proj2 (in_range_iff B _)), (proj2 (in_range_iff C _)) by lia.
    rewrite pack_LOAD_CONST by lia. now apply emit_ok.
  - rewrite (encode_READ_MEM _ _ _ _ Hops).
    rewrite (proj2 (in_range_iff B _)), (proj2 (in_range_iff C _)) by lia.
    rewrite pack_READ_MEM by lia. now apply emit_ok.
  - rewrite (encode_WRITE_MEM _ _ _ _ _ Hops). cbn [existsb].
    rewrite !(proj2 (in_range_iff _ 31)) by lia. cbn [orb].
    rewrite pack_three by lia. now apply emit_ok.
  - rewrite (encode_LEQ _ _ _ _ _ Hops). cbn [existsb].
    rewrite !(proj2 (in_range_iff _ 31)) by lia. cbn [orb].
    rewrite pack_three by lia. now apply emit_ok.
Qed.

(** An operand that does not fit stops the encoder at a range check. *)
Lemma encode_unfit i operands line_num :
  ~ fits i -> map_int operands = inr (operand_values i) ->
  exists fields,
    encode_instruction (mnemonic_of i) operands line_num
    = inl (OperandOutOfRange line_num (mnemonic_of i) fields).
Proof.
  unfold fits, fits_width.
  destruct i as [B C|B C|B C D|B C D];
    cbn [operand_values mnemonic_of]; intros Hfit Hops.
  - rewrite (encode_LOAD_CONST _ _ _ _ Hops).
    destruct (out_of_range B _) eqn:EB; [eauto|].
    destruct (out_of_range C _) eqn:EC; [eauto|].
    apply in_range_iff in EB, EC. exfalso. apply Hfit. lia.
  - rewrite (encode_READ_MEM _ _ _ _ Hops).
    destruct (out_of_range B _) eqn:EB; [eauto|].
    destruct (out_of_range C _) eqn:EC; [eauto|].
    apply in_range_iff in EB, EC. exfalso. apply Hfit. lia.
  - rewrite (encode_WRITE_MEM _ _ _ _ _ Hops).
    destruct (existsb _ _) eqn:E; [eauto|]. cbn [existsb] in E.
    rewrite !orb_false_iff, !in_range_iff in E. exfalso. apply Hfit. lia.
  - rewrite (encode_LEQ _ _ _ _ _ Hops).
    destruct (existsb _ _) eqn:E; [eauto|]. cbn [existsb] in E.
    rewrite !orb_false_iff, !in_range_iff in E. exfalso. apply Hfit. lia.
Qed.

Ltac solve_field :=
  masks_as_ones; rewrite ?field_spec, ?Z.land_ones by lia;
  Z.div_mod_to_equations; lia.

(** The digits of the packed fields decode to the instruction, wherever
    they stand in the image. *)
Lemma decode_packed i pre post :
  fits i ->
  decode (pre ++ Py.be_digits (width i) (packed i) ++ post) (length pre) = inr i.
Proof.
  intros Hfit. pose proof (packed_range i Hfit) as Hn. revert Hfit Hn.
  unfold fits, fits_width.
  destruct i as [B C|B C|B C D|B C D]; cbn [width packed]; intros Hfit Hn.
  - rewrite decode_LOAD_CONST; [|exact Hn|solve_field].
    f_equal. f_equal; solve_field.
  - rewrite decode_READ_MEM; [|exact Hn|solve_field].
    f_equal. f_equal; solve_field.
  - rewrite decode_WRITE_MEM; [|exact Hn|solve_field].
    f_equal. f_equal; solve_field.
  - rewrite decode_LEQ; [|exact Hn|solve_field].
    f_equal. f_equal; solve_field.
Qed.

(** C1. Round trip of the codec: for every opcode and every operand tuple
    that fits the declared field widths, the encoder succeeds, returns as
    many bytes as the opcode is wide, and the interpreter's decoder,
    pointed at these bytes anywhere in an image, yields the opcode and the
    operand tuple that were encoded. *)
Theorem codec_round_trip (i : instr) (operands : list string) (line_num : nat) :
  fits i -> map_int operands = inr (operand_values i) ->
  exists encoded entry,
    encode_instruction (mnemonic_of i) operands line_num = inr (encoded, entry) /\
    length encoded = width i /\
    forall pre post, decode (pre ++ encoded ++ post) (length pre) = inr i.
Proof.
  intros Hfit Hops.
  exists (Py.be_digits (width i) (packed i)), (entry_of i).
  split; [now apply encode_fits|]. split; [apply length_be_digits|].
  intros pre post. now apply decode_packed.
Qed.

Lemma codec_round_trip_witness :
  fits (LOAD_CONST 2147483647 31) /\
  map_int ["2147483647"%string; "31"%string] = inr [2147483647; 31] /\
  exists encoded entry,
    encode_instruction "LOAD_CONST" ["2147483647"%string; "31"%string] 1
      = inr (encoded, entry) /\
    length encoded = 6%nat /\
    forall pre post,
      decode (pre ++ encoded ++ post) (length pre) = inr (LOAD_CONST 2147483647 31).
Proof.
  assert (Hfit : fits (LOAD_CONST 2147483647 31))
    by (unfold fits, fits_width; lia).
  assert (Hops : map_int ["2147483647"%string; "31"%string] = inr [2147483647; 31])
    by reflexivity.
  split; [exact Hfit|]. split; [exact Hops|].
  exact (codec_round_trip (LOAD_CONST 2147483647 31) _ 1%nat Hfit Hops).
Defined.

(** C4. Boundary of the encoder.  For every opcode and operand tuple (given
    as tokens that read as integers): the encoder succeeds exactly when
    every operand [v] of a field of width [w] has [0 <= v <= 2^w - 1], and
    then the trace entry holds the operands as given; it raises the
    out-of-range error, returning no bytes, exactly when some operand is
    negative or above [2^w - 1].  LOAD_CONST takes [B = 2^31 - 1] and
    refuses [B = 2^31]. *)
Theorem encode_boundary :
  (forall (i : instr) (operands : list string) (line_num : nat),
     map_int operands = inr (operand_values i) ->
     (fits i <->
        exists encoded,
          encode_instruction (mnemonic_of i) operands line_num
          = inr (encoded, entry_of i)) /\
     (~ fits i <->
        exists fields,
          encode_instruction (mnemonic_of i) operands line_num
          = inl (OperandOutOfRange line_num (mnemonic_of i) fields))) /\
  (exists encoded,
     encode_instruction "LOAD_CONST" ["2147483647"%string; "0"%string] 1
     = inr (encoded, LogEntry "LOAD_CONST" 57 (2 ^ 31 - 1) 0 None)) /\
  encode_instruction "LOAD_CONST" ["2147483648"%string; "0"%string] 1
  = inl (OperandOutOfRange 1 "LOAD_CONST" "B").
Proof.
  split; [|split; [eexists|]; reflexivity].
  intros i operands line_num Hops.
  assert (Hdec : fits i \/ ~ fits i).
  { unfold fits, fits_width. destruct i; lia. }
  split; split.
  - intros Hfit. eexists. now apply encode_fits.
  - intros [encoded Henc]. destruct Hdec as [Hfit|Hunfit]; [exact Hfit|].
    destruct (encode_unfit i operands line_num Hunfit Hops) as [fields Hf].
    congruence.
  - intros Hunfit. now apply encode_unfit.
  - intros [fields Hf] Hfit.
    rewrite (encode_fits i operands line_num Hfit Hops) in Hf. discriminate.
Qed.

Lemma encode_boundary_witness :
  map_int ["31"%string; "32"%string; "0"%string] = inr [31; 32; 0] /\
  ~ fits (WRITE_MEM 31 32 0) /\
  exists fields,
    encode_instruction "WRITE_MEM" ["31"%string; "32"%string; "0"%string] 7
    = inl (OperandOutOfRange 7 "WRITE_MEM" fields).
Proof.
  assert (Hops : map_int ["31"%string; "32"%string; "0"%string] = inr [31; 32; 0])
    by reflexivity.
  assert (Hunfit : ~ fits (WRITE_MEM 31 32 0))
    by (unfold fits, fits_width; lia).
  split; [exact Hops|]. split; [exact Hunfit|].
  exact (proj1 (proj2 (proj1 encode_boundary (WRITE_MEM 31 32 0) _ 7%nat Hops)) Hunfit).
Defined.

End RoundTrip.

(** ** One iteration of the loop *)

Section Steps.
Import Interpreter Codec Machine.

Lemma index_in_range {A} (l : list A) (i : Z) :
  0 <= i < Z.of_nat (length l) -> Py.index l i = Some (Z.to_nat i).
Proof.
  intros H. unfold Py.index.
  replace ((0 <=? i) && (i <? Z.of_nat (length l))) with true; [reflexivity|].
  symmetry. apply andb_true_intro. split; [apply Z.leb_le | apply Z.ltb_lt]; lia.
Qed.

Lemma getitem_in_range {A} (l : list A) (i : Z) :
  0 <= i < Z.of_nat (length l) -> Py.getitem l i = l !! Z.to_nat i.
Proof. intros H. unfold Py.getitem. now rewrite index_in_range. Qed.

Lemma setitem_in_range {A} (l : list A) (i : Z) (v : A) :
  0 <= i < Z.of_nat (length l) ->
  Py.setitem l i v = Some (<[Z.to_nat i := v]> l).
Proof. intros H. unfold Py.setitem. now rewrite index_in_range. Qed.

(** A register subscript by a five-bit field always finds its slot. *)
Lemma register_lookup vm r :
  well_formed vm -> fits_width 5 r ->
  exists v, registers vm !! Z.to_nat r = Some v /\
            Py.getitem (registers vm) r = Some v.
Proof.
  unfold well_formed, fits_width. intros Hwf Hr.
  destruct (lookup_lt_is_Some_2 (registers vm) (Z.to_nat r)) as [v Hv]; [lia|].
  exists v. split; [exact Hv|]. rewrite getitem_in_range by lia. exact Hv.
Qed.

Lemma register_update vm r v :
  well_formed vm -> fits_width 5 r ->
  Py.setitem (registers vm) r v = Some (<[Z.to_nat r := v]> (registers vm)).
Proof.
  unfold well_formed, fits_width. intros Hwf Hr.
  apply setitem_in_range. lia.
Qed.

Lemma decode_in_image program pc i :
  decode program pc = inr i -> (pc < length program)%nat.
Proof.
  unfold decode. intros H.
  destruct (program !! pc) as [b|] eqn:E; [|discriminate].
  now apply lookup_lt_Some in E.
Qed.

Lemma execute_fuel_raise fuel vm e vm' :
  (pc vm < length (program vm))%nat -> step vm = Raise e vm' ->
  execute_fuel (S fuel) vm = Raised e vm'.
Proof.
  intros Hpc Hstep. cbn [execute_fuel].
  apply Nat.ltb_lt in Hpc. now rewrite Hpc, Hstep.
Qed.

Lemma step_LEQ vm B C D vB vD :
  well_formed vm -> decode (program vm) (pc vm) = inr (LEQ B C D) ->
  registers vm !! Z.to_nat B = Some vB ->
  registers vm !! Z.to_nat D = Some vD ->
  step vm = Continue (VM (<[Z.to_nat C := if vB <=? vD then 1 else 0]> (registers vm))
                         (memory vm) (program vm) (pc vm + 3)).
Proof.
  intros Hwf Hdec HB HD. destruct (decode_fits _ _ _ Hdec) as (FB & FC & FD).
  unfold step. rewrite Hdec. cbn [apply].
  destruct (register_lookup vm B Hwf FB) as (vB' & HB' & ->).
  destruct (register_lookup vm D Hwf FD) as (vD' & HD' & ->).
  cbn [subscript]. rewrite (register_update vm C _ Hwf FC). cbn [subscript].
  assert (vB' = vB) by congruence. assert (vD' = vD) by congruence.
  subst. reflexivity.
Qed.

Lemma step_WRITE_MEM vm B C D base val :
  well_formed vm -> decode (program vm) (pc vm) = inr (WRITE_MEM B C D) ->
  registers vm !! Z.to_nat C = Some base ->
  registers vm !! Z.to_nat B = Some val ->
  step vm =
    if outside vm (base + D) then Raise (AddressOutsideMemory (base + D)) vm
    else Continue (VM (registers vm) (<[Z.to_nat (base + D) := val]> (memory vm))
                      (program vm) (pc vm + 3)).
Proof.
  intros Hwf Hdec HC HB. destruct (decode_fits _ _ _ Hdec) as (FB & FC & FD).
  unfold step. rewrite Hdec. cbn [apply].
  destruct (register_lookup vm C Hwf FC) as (base' & HC' & ->).
  destruct (register_lookup vm B Hwf FB) as (val' & HB' & ->).
  cbn [subscript].
  assert (base' = base) by congruence. assert (val' = val) by congruence.
  subst. destruct (outside vm (base + D)) eqn:E; [reflexivity|].
  unfold outside in E. apply orb_false_elim in E as [E1 E2].
  rewrite setitem_in_range by lia. reflexivity.
Qed.

End Steps.

(** ** The effect of LEQ and WRITE_MEM *)

Section Effects.
Import Interpreter Codec Machine Examples.

(** C2. LEQ semantics: executing a decoded [LEQ B C D] on a machine with
    its 32 registers puts 1 into register [C] when register [B] is at most
    register [D] and 0 otherwise, leaves every other register, the memory
    and the image as they were, and advances [pc] by 3; and the assembled
    program of scenario 1, run from the all-zero state, halts with 1 in
    register 2. *)
Theorem leq_semantics :
  (forall vm B C D,
     well_formed vm -> decode (program vm) (pc vm) = inr (LEQ B C D) ->
     exists vB vD vm',
       registers vm !! Z.to_nat B = Some vB /\
       registers vm !! Z.to_nat D = Some vD /\
       step vm = Continue vm' /\
       registers vm' !! Z.to_nat C = Some (if vB <=? vD then 1 else 0) /\
       (forall k, k <> Z.to_nat C -> registers vm' !! k = registers vm !! k) /\
       length (registers vm') = 32%nat /\
       memory vm' = memory vm /\
       program vm' = program vm /\
       pc vm' = (pc vm + 3)%nat) /\
  (exists vm,
     assemble_and_run scenario_1 = Some vm /\ registers vm !! 2%nat = Some 1).
Proof.
  split.
  - intros vm B C D Hwf Hdec.
    destruct (decode_fits _ _ _ Hdec) as (FB & FC & FD).
    destruct (register_lookup vm B Hwf FB) as (vB & HB & _).
    destruct (register_lookup vm D Hwf FD) as (vD & HD & _).
    exists vB, vD. eexists. split; [exact HB|]. split; [exact HD|].
    split; [exact (step_LEQ vm B C D vB vD Hwf Hdec HB HD)|].
    cbn [registers memory program pc].
    unfold well_formed, fits_width in *.
    split; [apply list_lookup_insert_eq; lia|].
    split; [intros k Hk; now apply list_lookup_insert_ne|].
    split; [now rewrite length_insert|]. auto.
  - eexists. split; [vm_compute; reflexivity|reflexivity].
Qed.

Lemma leq_semantics_witness :
  well_formed before_leq /\
  decode (program before_leq) (pc before_leq) = inr (LEQ 0 2 1) /\
  exists vB vD vm',
    registers before_leq !! Z.to_nat 0 = Some vB /\
    registers before_leq !! Z.to_nat 1 = Some vD /\
    step before_leq = Continue vm' /\
    registers vm' !! Z.to_nat 2 = Some (if vB <=? vD then 1 else 0) /\
    (forall k, k <> Z.to_nat 2 -> registers vm' !! k = registers before_leq !! k) /\
    length (registers vm') = 32%nat /\
    memory vm' = memory before_leq /\
    program vm' = program before_leq /\
    pc vm' = (pc before_leq + 3)%nat.
Proof.
  assert (Hwf : well_formed before_leq) by reflexivity.
  assert (Hdec : decode (program before_leq) (pc before_leq) = inr (LEQ 0 2 1))
    by reflexivity.
  split; [exact Hwf|]. split; [exact Hdec|].
  exact (proj1 leq_semantics before_leq 0 2 1 Hwf Hdec).
Defined.

(** C3, as the specification states it, fails: after [LOAD_CONST 5 0]
    register 0 holds 5, not 0, so [WRITE_MEM 0 0 3] does not write to cell
    3.  No run of scenario 2 ends with 5 in [memory[3]]. *)
Lemma write_scenario_cell_3 :
  ~ exists vm, assemble_and_run scenario_2 = Some vm /\ memory vm !! 3%nat = Some 5.
Proof.
  intros (vm & Hrun & H3). vm_compute in Hrun. injection Hrun as <-.
  discriminate H3.
Qed.

(** C3, amended.  The WRITE_MEM rule: with [base] in register [C], [val]
    in register [B] and [base + D] inside the memory, executing a decoded
    [WRITE_MEM B C D] stores [val] at [base + D], changes nothing else and
    advances [pc] by 3.  By this rule the program [LOAD_CONST 5 0],
    [WRITE_MEM 0 0 3], run from the all-zero state, has base 5 and writes
    to address 8: it halts with [memory[8] == 5], every other cell, cell 3
    included, still 0. *)
Theorem write_scenario :
  (forall vm B C D base val,
     well_formed vm -> decode (program vm) (pc vm) = inr (WRITE_MEM B C D) ->
     registers vm !! Z.to_nat C = Some base ->
     registers vm !! Z.to_nat B = Some val ->
     0 <= base + D < Z.of_nat (length (memory vm)) ->
     step vm = Continue (VM (registers vm)
                            (<[Z.to_nat (base + D) := val]> (memory vm))
                            (program vm) (pc vm + 3))) /\
  (exists vm,
     assemble_and_run scenario_2 = Some vm /\
     registers vm !! 0%nat = Some 5 /\
     memory vm = <[8%nat := 5]> (replicate 256 0) /\
     memory vm !! 8%nat = Some 5 /\
     memory vm !! 3%nat = Some 0).
Proof.
  split.
  - intros vm B C D base val Hwf Hdec HC HB Haddr.
    rewrite (step_WRITE_MEM vm B C D base val Hwf Hdec HC HB).
    unfold outside.
    replace (_ || _) with false; [reflexivity|].
    symmetry. apply orb_false_intro; lia.
  - eexists. split; [vm_compute; reflexivity|]. repeat split.
Qed.

Lemma write_scenario_witness :
  well_formed before_write /\
  decode (program before_write) (pc before_write) = inr (WRITE_MEM 0 0 3) /\
  registers before_write !! Z.to_nat 0 = Some 5 /\
  0 <= 5 + 3 < Z.of_nat (length (memory before_write)) /\
  step before_write
  = Continue (VM (registers before_write)
                 (<[Z.to_nat (5 + 3) := 5]> (memory before_write))
                 (program before_write) (pc before_write + 3)).
Proof.
  assert (Hwf : well_formed before_write) by reflexivity.
  assert (Hdec : decode (program before_write) (pc before_write)
                 = inr (WRITE_MEM 0 0 3)) by reflexivity.
  assert (Hreg : registers before_write !! Z.to_nat 0 = Some 5) by reflexivity.
  assert (Haddr : 0 <= 5 + 3 < Z.of_nat (length (memory before_write)))
    by (vm_compute; split; [discriminate|reflexivity]).
  split; [exact Hwf|]. split; [exact Hdec|]. split; [exact Hreg|].
  split; [exact Haddr|].
  exact (proj1 write_scenario before_write 0 0 3 5 5 Hwf Hdec Hreg Hreg Haddr).
Defined.

(** C6. WRITE_MEM bounds: on a machine with its 32 registers, a decoded
    [WRITE_MEM B C D] whose address [registers[C] + D] is negative or at
    least the memory size raises the address error, and the state at the
    raise is the state before the instruction: no memory cell, no
    register, and not the [pc], has changed.  [execute] started there ends
    with that error in that state. *)
Theorem write_mem_out_of_bounds vm B C D base :
  well_formed vm -> decode (program vm) (pc vm) = inr (WRITE_MEM B C D) ->
  registers vm !! Z.to_nat C = Some base ->
  base + D < 0 \/ Z.of_nat (length (memory vm)) <= base + D ->
  step vm = Raise (AddressOutsideMemory (base + D)) vm /\
  forall fuel,
    execute_fuel (S fuel) vm = Raised (AddressOutsideMemory (base + D)) vm.
Proof.
  intros Hwf Hdec HC Haddr.
  destruct (decode_fits _ _ _ Hdec) as (FB & FC & FD).
  destruct (register_lookup vm B Hwf FB) as (val & HB & _).
  assert (Hstep : step vm = Raise (AddressOutsideMemory (base + D)) vm).
  { rewrite (step_WRITE_MEM vm B C D base val Hwf Hdec HC HB).
    unfold outside. replace (_ || _) with true; [reflexivity|].
    symmetry. apply orb_true_iff. lia. }
  split; [exact Hstep|]. intros fuel.
  apply execute_fuel_raise; [|exact Hstep]. now apply decode_in_image in Hdec.
Qed.

Lemma write_mem_out_of_bounds_witness :
  well_formed before_far_write /\
  decode (program before_far_write) (pc before_far_write)
    = inr (WRITE_MEM 0 1 31) /\
  registers before_far_write !! Z.to_nat 1 = Some 250 /\
  Z.of_nat (length (memory before_far_write)) <= 250 + 31 /\
  step before_far_write = Raise (AddressOutsideMemory (250 + 31)) before_far_write /\
  forall fuel,
    execute_fuel (S fuel) before_far_write
    = Raised (AddressOutsideMemory (250 + 31)) before_far_write.
Proof.
  assert (Hwf : well_formed before_far_write) by reflexivity.
  assert (Hdec : decode (program before_far_write) (pc before_far_write)
                 = inr (WRITE_MEM 0 1 31)) by reflexivity.
  assert (Hreg : registers before_far_write !! Z.to_nat 1 = Some 250)
    by reflexivity.
  assert (Haddr : Z.of_nat (length (memory before_far_write)) <= 250 + 31)
    by (vm_compute; discriminate).
  split; [exact Hwf|]. split; [exact Hdec|]. split; [exact Hreg|].
  split; [exact Haddr|].
  exact (write_mem_out_of_bounds before_far_write 0 1 31 250 Hwf Hdec Hreg
           (or_intror Haddr)).
Defined.

(** C7. Truncated image: when the byte at [pc] carries the numeric code of
    an opcode, and fewer bytes remain from [pc] to the end of the image
    than the opcode is wide, the iteration raises the not-enough-bytes
    error of that opcode, and the state at the raise is the state before
    the fetch: registers, memory and [pc] are as they were.  [execute]
    started there ends with that error in that state. *)
Theorem truncated_instruction vm b name w :
  program vm !! pc vm = Some b ->
  declared (discriminant b) = Some (name, w) ->
  (length (program vm) - pc vm < w)%nat ->
  step vm = Raise (NotEnoughBytes name) vm /\
  forall fuel, execute_fuel (S fuel) vm = Raised (NotEnoughBytes name) vm.
Proof.
  intros Hb Hop Hlen.
  assert (Hpc : (pc vm < length (program vm))%nat) by now apply lookup_lt_Some in Hb.
  assert (Hstep : step vm = Raise (NotEnoughBytes name) vm).
  { unfold step, decode. rewrite Hb, opcode_of_byte.
    unfold declared, discriminant in Hop.
    repeat match type of Hop with
    | (if ?c then _ else _) = _ => destruct c
    end; try discriminate; injection Hop as <- <-;
    (replace (_ <? _)%nat with true by (symmetry; apply Nat.ltb_lt; lia));
    reflexivity. }
  split; [exact Hstep|]. intros fuel. now apply execute_fuel_raise.
Qed.

Lemma truncated_instruction_witness :
  program truncated !! pc truncated = Some xe4 /\
  declared (discriminant xe4) = Some ("LOAD_CONST"%string, 6%nat) /\
  (length (program truncated) - pc truncated < 6)%nat /\
  step truncated = Raise (NotEnoughBytes "LOAD_CONST") truncated /\
  forall fuel,
    execute_fuel (S fuel) truncated = Raised (NotEnoughBytes "LOAD_CONST") truncated.
Proof.
  assert (Hb : program truncated !! pc truncated = Some xe4) by reflexivity.
  assert (Hop : declared (discriminant xe4) = Some ("LOAD_CONST"%string, 6%nat))
    by reflexivity.
  assert (Hlen : (length (program truncated) - pc truncated < 6)%nat)
    by (vm_compute; lia).
  split; [exact Hb|]. split; [exact Hop|]. split; [exact Hlen|].
  exact (truncated_instruction truncated xe4 _ _ Hb Hop Hlen).
Defined.

End Effects.

(** ** Runs of the interpreter *)

Section Runs.
Import Interpreter Codec Machine.

Lemma width_at_least_2 i : (2 <= width i)%nat.
Proof. destruct i; cbn; lia. Qed.

Ltac step_cases H :=
  unfold step in H;
  match type of H with
  | match ?d with _ => _ end = _ =>
      let i := fresh "i" in let E := fresh "Hdec" in
      destruct d as [?|i] eqn:E; [|destruct i; cbn [apply] in H]
  end;
  repeat match type of H with
  | subscript _ ?o _ = _ => destruct o; cbn [subscript] in H
  | (if ?c then _ else _) = _ => destruct c
  end.

(** An iteration that goes on has executed the instruction at [pc] and
    moved [pc] past it; the image is not touched. *)
Lemma step_continue vm vm' :
  step vm = Continue vm' ->
  exists i, decode (program vm) (pc vm) = inr i /\
            pc vm' = (pc vm + width i)%nat /\ program vm' = program vm.
Proof.
  intros H. step_cases H; try discriminate; injection H as <-;
    eexists; (split; [reflexivity|]); split; reflexivity.
Qed.

(** An iteration that raises has changed nothing. *)
Lemma step_raise vm e vm' : step vm = Raise e vm' -> vm' = vm.
Proof.
  intros H. step_cases H; try discriminate; now injection H as <- <-.
Qed.

Lemma reachable_head vm0 vm1 vm :
  step vm0 = Continue vm1 -> reachable vm1 vm -> reachable vm0 vm.
Proof.
  intros H0 Hr. induction Hr as [|vm vm' _ IH Hs].
  - eapply reachable_step; [apply reachable_start | exact H0].
  - eapply reachable_step; [exact IH | exact Hs].
Qed.

Lemma reachable_pc vm0 vm :
  reachable vm0 vm -> (pc vm0 <= pc vm)%nat /\ program vm = program vm0.
Proof.
  induction 1 as [|vm vm' _ [IHpc IHprog] Hs]; [split; [lia|reflexivity]|].
  apply step_continue in Hs as (i & _ & Hpc & Hprog).
  split; [lia | congruence].
Qed.

(** With as much fuel as there are bytes left, the loop does not run out
    of it. *)
Lemma execute_fuel_enough fuel vm :
  (length (program vm) - pc vm <= fuel)%nat ->
  (exists vm', execute_fuel fuel vm = Halted vm' /\ reachable vm vm' /\
               (length (program vm') <= pc vm')%nat) \/
  (exists e vm', execute_fuel fuel vm = Raised e vm' /\ reachable vm vm' /\
                 (pc vm' < length (program vm'))%nat /\ step vm' = Raise e vm').
Proof.
  revert vm. induction fuel as [|fuel IH]; intros vm Hfuel.
  - left. exists vm. cbn [execute_fuel].
    replace (_ <? _)%nat with false by (symmetry; apply Nat.ltb_ge; lia).
    split; [reflexivity|]. split; [apply reachable_start | lia].
  - cbn [execute_fuel]. destruct (pc vm <? length (program vm))%nat eqn:Hpc.
    + apply Nat.ltb_lt in Hpc. destruct (step vm) as [vm1|e vm1] eqn:Hs.
      * pose proof (step_continue _ _ Hs) as (i & _ & Hpc1 & Hprog1).
        pose proof (width_at_least_2 i).
        destruct (IH vm1) as [(vm' & He & Hr & Hend)|(e & vm' & He & Hr & Hin & Hs')].
        { rewrite Hprog1. lia. }
        { left. exists vm'. split; [exact He|].
          split; [now apply (reachable_head vm vm1)|exact Hend]. }
        { right. exists e, vm'. split; [exact He|].
          split; [now apply (reachable_head vm vm1)|]. now split. }
      * right. exists e, vm1. pose proof (step_raise _ _ _ Hs) as ->.
        split; [reflexivity|]. split; [apply reachable_start|]. now split.
    + apply Nat.ltb_ge in Hpc. left. exists vm.
      split; [reflexivity|]. split; [apply reachable_start | exact Hpc].
Qed.

(** The result of the loop does not depend on the fuel, once there is
    enough of it. *)
Lemma execute_fuel_stable fuel1 : forall fuel2 vm,
  (length (program vm) - pc vm <= fuel1)%nat ->
  (length (program vm) - pc vm <= fuel2)%nat ->
  execute_fuel fuel1 vm = execute_fuel fuel2 vm.
Proof.
  induction fuel1 as [|fuel1 IH]; intros fuel2 vm H1 H2.
  - destruct fuel2; cbn [execute_fuel];
      replace (_ <? _)%nat with false by (symmetry; apply Nat.ltb_ge; lia);
      reflexivity.
  - cbn [execute_fuel]. destruct (pc vm <? length (program vm))%nat eqn:Hpc.
    + apply Nat.ltb_lt in Hpc. destruct fuel2 as [|fuel2]; [lia|].
      cbn [execute_fuel]. apply Nat.ltb_lt in Hpc. rewrite Hpc.
      destruct (step vm) as [vm1|e vm1] eqn:Hs; [|reflexivity].
      apply step_continue in Hs as (i & _ & Hpc1 & Hprog1).
      pose proof (width_at_least_2 i).
      apply IH; rewrite Hprog1; lia.
    + destruct fuel2; cbn [execute_fuel]; now rewrite Hpc.
Qed.

(** C8. Termination of the interpreter.  An iteration of the loop either
    raises, leaving the state as it is, or moves [pc] forward by the width
    of the instruction it executed, which is at least 2; so [pc] never
    decreases along a run.  For every image, [execute] ends: it halts with
    [pc] at or past the end of the image, or it raises; as many iterations
    as the image has bytes are always enough, and more change nothing. *)
Theorem execute_terminates vm :
  (forall vm', step vm = Continue vm' ->
     exists i, decode (program vm) (pc vm) = inr i /\
               pc vm' = (pc vm + width i)%nat /\ (2 <= width i)%nat /\
               program vm' = program vm) /\
  (forall e vm', step vm = Raise e vm' -> vm' = vm) /\
  (forall vm', reachable vm vm' -> (pc vm <= pc vm')%nat) /\
  (forall fuel, (length (program vm) - pc vm <= fuel)%nat ->
                execute_fuel fuel vm = execute vm) /\
  ((exists vm', execute vm = Halted vm' /\ reachable vm vm' /\
                (length (program vm) <= pc vm')%nat) \/
   (exists e vm', execute vm = Raised e vm' /\ reachable vm vm' /\
                  step vm' = Raise e vm')).
Proof.
  split; [|split; [|split; [|split]]].
  - intros vm' Hs. destruct (step_continue _ _ Hs) as (i & Hd & Hpc & Hprog).
    exists i. pose proof (width_at_least_2 i). auto.
  - intros e vm'. apply step_raise.
  - intros vm' Hr. now apply reachable_pc in Hr.
  - intros fuel Hfuel. unfold execute. apply execute_fuel_stable; lia.
  - unfold execute.
    destruct (execute_fuel_enough (length (program vm)) vm)
      as [(vm' & He & Hr & Hend)|(e & vm' & He & Hr & _ & Hs)]; [lia| |].
    + left. exists vm'. split; [exact He|]. split; [exact Hr|].
      apply reachable_pc in Hr as [_ <-]. exact Hend.
    + right. exists e, vm'. auto.
Qed.

End Runs.

(** ** The range of register and memory values *)

Section Invariant.
Import Interpreter Codec Machine Examples.

Lemma step_LOAD_CONST vm B C :
  well_formed vm -> decode (program vm) (pc vm) = inr (LOAD_CONST B C) ->
  step vm = Continue (VM (<[Z.to_nat C := B]> (registers vm))
                         (memory vm) (program vm) (pc vm + 6)).
Proof.
  intros Hwf Hdec. destruct (decode_fits _ _ _ Hdec) as (FB & FC).
  unfold step. rewrite Hdec. cbn [apply].
  now rewrite (register_update vm C _ Hwf FC).
Qed.

Lemma step_READ_MEM vm B C addr :
  well_formed vm -> decode (program vm) (pc vm) = inr (READ_MEM B C) ->
  registers vm !! Z.to_nat C = Some addr ->
  (outside vm addr = true /\ step vm = Raise (AddressOutsideMemory addr) vm) \/
  (exists v, outside vm addr = false /\ memory vm !! Z.to_nat addr = Some v /\
     step vm = Continue (VM (<[Z.to_nat B := v]> (registers vm))
                            (memory vm) (program vm) (pc vm + 2))).
Proof.
  intros Hwf Hdec HC. destruct (decode_fits _ _ _ Hdec) as (FB & FC).
  unfold step. rewrite Hdec. cbn [apply].
  destruct (register_lookup vm C Hwf FC) as (addr' & HC' & ->).
  cbn [subscript]. assert (addr' = addr) by congruence. subst addr'.
  destruct (outside vm addr) eqn:E; [left; now split|right].
  unfold outside in E. apply orb_false_elim in E as [E1 E2].
  destruct (lookup_lt_is_Some_2 (memory vm) (Z.to_nat addr)) as [v Hv]; [lia|].
  exists v. split; [reflexivity|]. split; [exact Hv|].
  rewrite getitem_in_range, Hv by lia. cbn [subscript].
  now rewrite (register_update vm B _ Hwf FB).
Qed.

(** One iteration keeps the shape of the machine and the range of its
    values. *)
Lemma step_preserves vm vm' :
  well_formed vm -> values_in_range vm -> step vm = Continue vm' ->
  well_formed vm' /\ values_in_range vm' /\
  length (memory vm') = length (memory vm).
Proof.
  unfold well_formed, values_in_range. intros Hwf [Hregs Hmem] Hs.
  destruct (step_continue _ _ Hs) as ([B C|B C|B C D|B C D] & Hdec & _ & _);
    pose proof (decode_fits _ _ _ Hdec) as Hfit; cbn [fits] in Hfit.
  - rewrite (step_LOAD_CONST vm B C Hwf Hdec) in Hs. injection Hs as <-.
    cbn [registers memory]. rewrite length_insert.
    repeat split; auto. apply Forall_insert; [exact Hregs|apply Hfit].
  - destruct Hfit as [FB FC].
    destruct (register_lookup vm C Hwf FC) as (addr & HC & _).
    destruct (step_READ_MEM vm B C addr Hwf Hdec HC)
      as [[_ Hr]|(v & _ & Hv & Hc)]; [congruence|].
    rewrite Hc in Hs. injection Hs as <-.
    cbn [registers memory]. rewrite length_insert.
    repeat split; auto. apply Forall_insert; [exact Hregs|].
    now apply (Forall_lookup_1 _ _ _ _ Hmem Hv).
  - destruct Hfit as (FB & FC & FD).
    destruct (register_lookup vm C Hwf FC) as (base & HC & _).
    destruct (register_lookup vm B Hwf FB) as (val & HB & _).
    rewrite (step_WRITE_MEM vm B C D base val Hwf Hdec HC HB) in Hs.
    destruct (outside vm (base + D)); [discriminate|]. injection Hs as <-.
    cbn [registers memory]. rewrite length_insert.
    repeat split; auto. apply Forall_insert; [exact Hmem|].
    now apply (Forall_lookup_1 _ _ _ _ Hregs HB).
  - destruct Hfit as (FB & FC & FD).
    destruct (register_lookup vm B Hwf FB) as (vB & HB & _).
    destruct (register_lookup vm D Hwf FD) as (vD & HD & _).
    rewrite (step_LEQ vm B C D vB vD Hwf Hdec HB HD) in Hs. injection Hs as <-.
    cbn [registers memory]. rewrite length_insert.
    repeat split; auto. apply Forall_insert; [exact Hregs|].
    unfold is_uint31. destruct (vB <=? vD); lia.
Qed.

Lemma fresh_invariant memory_size image :
  well_formed (fresh memory_size image) /\
  values_in_range (fresh memory_size image) /\
  length (memory (fresh memory_size image)) = memory_size.
Proof.
  unfold well_formed, values_in_range, fresh, load_program, init.
  cbn [registers memory]. rewrite !length_replicate.
  repeat split; apply Forall_replicate; unfold is_uint31; lia.
Qed.

Lemma reachable_invariant memory_size image vm :
  reachable (fresh memory_size image) vm ->
  well_formed vm /\ values_in_range vm /\ length (memory vm) = memory_size.
Proof.
  induction 1 as [|vm vm' _ (Hwf & Hval & Hlen) Hs].
  - apply fresh_invariant.
  - destruct (step_preserves vm vm' Hwf Hval Hs) as (Hwf' & Hval' & Hlen').
    split; [exact Hwf'|]. split; [exact Hval'|]. congruence.
Qed.

(** C10. Range of the values.  In every state the loop goes through when
    started from the all-zero state on any image, there are 32 registers
    and as many memory cells as at the start, and every register and
    every cell holds an integer in [[0, 2^31 - 1]].  Hence every memory
    address an instruction computes is non-negative, and an address error
    is only ever raised for an address at or past the end of the memory:
    the [addr < 0] half of the check never fires. *)
Theorem value_range_invariant memory_size image vm :
  reachable (fresh memory_size image) vm ->
  length (registers vm) = 32%nat /\
  length (memory vm) = memory_size /\
  Forall is_uint31 (registers vm) /\
  Forall is_uint31 (memory vm) /\
  (forall i addr,
     decode (program vm) (pc vm) = inr i ->
     computed_address vm i = Some addr -> 0 <= addr) /\
  (forall addr vm',
     step vm = Raise (AddressOutsideMemory addr) vm' ->
     Z.of_nat (length (memory vm)) <= addr).
Proof.
  intros Hr. destruct (reachable_invariant _ _ _ Hr) as (Hwf & [Hregs Hmem] & Hlen).
  split; [exact Hwf|]. split; [exact Hlen|]. split; [exact Hregs|].
  split; [exact Hmem|].
  assert (Haddr : forall i addr, decode (program vm) (pc vm) = inr i ->
            computed_address vm i = Some addr -> 0 <= addr).
  { intros i addr Hdec Hc. pose proof (decode_fits _ _ _ Hdec) as Hfit.
    destruct i as [B C|B C|B C D|B C D]; cbn [computed_address fits] in *;
      try discriminate.
    - destruct Hfit as [FB FC].
      destruct (register_lookup vm C Hwf FC) as (a & HC & HC').
      rewrite HC' in Hc. injection Hc as <-.
      pose proof (Forall_lookup_1 _ _ _ _ Hregs HC) as Ha.
      unfold is_uint31 in Ha. lia.
    - destruct Hfit as (FB & FC & FD).
      destruct (register_lookup vm C Hwf FC) as (a & HC & HC').
      rewrite HC' in Hc. cbn in Hc. injection Hc as <-.
      pose proof (Forall_lookup_1 _ _ _ _ Hregs HC) as Ha.
      unfold is_uint31 in Ha. unfold fits_width in FD. lia. }
  split; [exact Haddr|].
  intros addr vm' Hs. unfold step in Hs.
  destruct (decode (program vm) (pc vm)) as [e|i] eqn:Hdec.
  - unfold decode in Hdec. destruct (program vm !! pc vm); [|congruence].
    repeat match type of Hdec with
    | (if ?c then _ else _) = _ => destruct c
    end; congruence.
  - specialize (Haddr i). destruct i as [B C|B C|B C D|B C D];
      cbn [apply computed_address] in *.
    + destruct (Py.setitem _ _ _); cbn [subscript] in Hs; discriminate.
    + destruct (Py.getitem (registers vm) C) as [a|]; cbn [subscript] in Hs;
        [|discriminate].
      specialize (Haddr a eq_refl eq_refl).
      destruct (outside vm a) eqn:E.
      * injection Hs as <- _. unfold outside in E. lia.
      * destruct (Py.getitem (memory vm) a); cbn [subscript] in Hs; [|discriminate].
        destruct (Py.setitem _ _ _); cbn [subscript] in Hs; discriminate.
    + destruct (Py.getitem (registers vm) C) as [a|]; cbn [subscript] in Hs;
        [|discriminate].
      specialize (Haddr (a + D) eq_refl eq_refl).
      destruct (Py.getitem (registers vm) B); cbn [subscript] in Hs; [|discriminate].
      destruct (outside vm (a + D)) eqn:E.
      * injection Hs as <- _. unfold outside in E. lia.
      * destruct (Py.setitem _ _ _); cbn [subscript] in Hs; discriminate.
    + repeat match type of Hs with
      | subscript _ ?o _ = _ => destruct o; cbn [subscript] in Hs
      end; discriminate.
Qed.

Lemma value_range_invariant_witness :
  reachable (fresh 256 load_image) after_load /\
  length (registers after_load) = 32%nat /\
  length (memory after_load) = 256%nat /\
  Forall is_uint31 (registers after_load) /\
  Forall is_uint31 (memory after_load) /\
  (forall i addr,
     decode (program after_load) (pc after_load) = inr i ->
     computed_address after_load i = Some addr -> 0 <= addr) /\
  (forall addr vm',
     step after_load = Raise (AddressOutsideMemory addr) vm' ->
     Z.of_nat (length (memory after_load)) <= addr).
Proof.
  assert (Hr : reachable (fresh 256 load_image) after_load).
  { apply (reachable_step _ (fresh 256 load_image)); [apply reachable_start|].
    reflexivity. }
  split; [exact Hr|].
  exact (value_range_invariant 256 load_image after_load Hr).
Defined.

End Invariant.

(** ** The assembler stops at the first error *)

Section FailFast.
Import Assembler Machine Examples.

Lemma map_int_error operands e :
  map_int operands = inl e -> is_ValueError e = true.
Proof.
  induction operands as [|t ts IH]; simpl; [discriminate|].
  destruct (Py.int t); [|now intros [= <-]].
  destruct (map_int ts); [|discriminate]. intros [= <-]. now apply IH.
Qed.

(** [to_bytes] never overflows in the encoder: every exception that leaves
    [encode_instruction] is a [ValueError]. *)
Lemma encode_error_is_ValueError mnemonic operands line_num e :
  encode_instruction mnemonic operands line_num = inl e -> is_ValueError e = true.
Proof.
  unfold encode_instruction.
  destruct (dict_get OPCODES mnemonic) as [A|] eqn:EA; [|now intros [= <-]].
  repeat match goal with
  | |- (if String.eqb mnemonic ?s then _ else _) = _ -> _ =>
      let E := fresh "E" in
      destruct (String.eqb mnemonic s) eqn:E;
      [apply String.eqb_eq in E; subst mnemonic; vm_compute in EA;
       injection EA as <-
      |]
  end; try (now intros [= <-]);
  (destruct (negb _); [now intros [= <-]|]);
  (destruct (map_int operands) as [e'|vs] eqn:Hops;
   [intros [= <-]; now apply (map_int_error operands)|]);
  destruct vs as [|B [|C [|D [|? ?]]]]; try (now intros [= <-]).
  - destruct (out_of_range B _) eqn:EB; [now intros [= <-]|].
    destruct (out_of_range C _) eqn:EC; [now intros [= <-]|].
    apply in_range_iff in EB, EC. change (Z.shiftl 1 31 - 1) with (2 ^ 31 - 1) in EB.
    rewrite pack_LOAD_CONST, emit_ok by lia. discriminate.
  - destruct (out_of_range B _) eqn:EB; [now intros [= <-]|].
    destruct (out_of_range C _) eqn:EC; [now intros [= <-]|].
    apply in_range_iff in EB, EC.
    rewrite pack_READ_MEM, emit_ok by lia. discriminate.
  - destruct (existsb _ _) eqn:Hex; [now intros [= <-]|]. cbn [existsb] in Hex.
    rewrite !orb_false_iff, !in_range_iff in Hex.
    rewrite pack_three, emit_ok by lia. discriminate.
  - destruct (existsb _ _) eqn:Hex; [now intros [= <-]|]. cbn [existsb] in Hex.
    rewrite !orb_false_iff, !in_range_iff in Hex.
    rewrite pack_three, emit_ok by lia. discriminate.
Qed.

(** The loop, started at line [n] on lines of which one at least runs
    into an error: it stops at the first such line, whatever it has
    collected so far. *)
Lemma assemble_loop_fail lines : forall n binary_output log_output i line e,
  lines !! i = Some line -> line_error line (n + i) = Some e ->
  exists j line' e',
    (j <= i)%nat /\ lines !! j = Some line' /\
    line_error line' (n + j) = Some e' /\
    (forall k l, (k < j)%nat -> lines !! k = Some l -> line_error l (n + k) = None) /\
    assemble_loop lines n binary_output log_output
    = Effects None None [Reported (n + j) e'] 1.
Proof.
  induction lines as [|first rest IH]; intros n bin log i line e Hi He.
  - discriminate.
  - destruct (line_error first n) as [e0|] eqn:H0.
    + exists 0%nat, first, e0. rewrite Nat.add_0_r.
      split; [lia|]. split; [reflexivity|]. split; [exact H0|].
      split; [intros k l Hk; lia|].
      cbn [assemble_loop]. unfold line_error in H0.
      destruct (tokenize first) as [[mnemonic operands]|]; [|discriminate].
      destruct (encode_instruction mnemonic operands n) as [e1|[encoded entry]] eqn:Henc;
        [|discriminate].
      injection H0 as <-. now rewrite (encode_error_is_ValueError _ _ _ _ Henc).
    + destruct i as [|i].
      { cbn in Hi. injection Hi as <-. rewrite Nat.add_0_r in He. congruence. }
      cbn in Hi. rewrite <- Nat.add_succ_comm in He.
      assert (Hloop : forall bin' log',
        exists j line' e',
          (j <= i)%nat /\ rest !! j = Some line' /\
          line_error line' (S n + j) = Some e' /\
          (forall k l, (k < j)%nat -> rest !! k = Some l ->
                       line_error l (S n + k) = None) /\
          assemble_loop rest (S n) bin' log' = Effects None None [Reported (S n + j) e'] 1)
        by (intros bin' log'; exact (IH (S n) bin' log' i line e Hi He)).
      assert (Hgo : exists bin' log',
        assemble_loop (first :: rest) n bin log = assemble_loop rest (S n) bin' log').
      { cbn [assemble_loop]. unfold line_error in H0.
        destruct (tokenize first) as [[mnemonic operands]|]; [|eauto].
        destruct (encode_instruction mnemonic operands n) as [e1|[encoded entry]];
          [discriminate|].
        destruct encoded; eauto. }
      destruct Hgo as (bin' & log' & ->).
      destruct (Hloop bin' log') as (j & line' & e' & Hj & Hl & He' & Hmin & Hres).
      exists (S j), line', e'. rewrite <- Nat.add_succ_comm.
      split; [lia|]. split; [exact Hl|]. split; [exact He'|].
      split; [|exact Hres].
      intros [|k] l Hk Hkl.
      * cbn in Hkl. injection Hkl as <-. now rewrite Nat.add_0_r.
      * cbn in Hkl. rewrite <- Nat.add_succ_comm. apply Hmin; [lia|exact Hkl].
Qed.

(** C5. The assembler fails fast and writes nothing.  For every source
    text in which some line runs into an error of the encoder (unknown
    mnemonic, wrong number of operands, an operand that is not an integer,
    an operand out of range), the assembler stops at the first such line:
    neither the binary image nor the trace is written, the one message on
    the error stream carries the 1-based number of that line and its
    error, and the exit status is 1. *)
Theorem assemble_fail_fast text i line e :
  readlines text !! i = Some line -> line_error line (S i) = Some e ->
  exists j line' e',
    (j <= i)%nat /\ readlines text !! j = Some line' /\
    line_error line' (S j) = Some e' /\
    (forall k l, (k < j)%nat -> readlines text !! k = Some l ->
                 line_error l (S k) = None) /\
    binary_file (assemble text) = None /\
    log_file (assemble text) = None /\
    stderr (assemble text) = [Reported (S j) e'] /\
    exit_status (assemble text) = 1.
Proof.
  intros Hi He.
  destruct (assemble_loop_fail (readlines text) 1 [] [] i line e Hi He)
    as (j & line' & e' & Hj & Hl & He' & Hmin & Hres).
  exists j, line', e'. unfold assemble. rewrite Hres. cbn. auto 10.
Qed.

Lemma assemble_fail_fast_witness :
  readlines bad_text !! 2%nat = Some (String.append "load_const 20 32" (String "010" EmptyString)) /\
  line_error (String.append "load_const 20 32" (String "010" EmptyString)) 3
    = Some (OperandOutOfRange 3 "LOAD_CONST" "C") /\
  exists j line' e',
    (j <= 2)%nat /\ readlines bad_text !! j = Some line' /\
    line_error line' (S j) = Some e' /\
    (forall k l, (k < j)%nat -> readlines bad_text !! k = Some l ->
                 line_error l (S k) = None) /\
    binary_file (assemble bad_text) = None /\
    log_file (assemble bad_text) = None /\
    stderr (assemble bad_text) = [Reported (S j) e'] /\
    exit_status (assemble bad_text) = 1.
Proof.
  split; [reflexivity|]. split; [reflexivity|].
  exact (assemble_fail_fast bad_text 2%nat _ _ eq_refl eq_refl).
Defined.

End FailFast.

(** ** Memory-range requests *)

Section Requests.
Import Interpreter Machine Examples.

Lemma append_empty_r s : (s ++ EmptyString)%string = s.
Proof. induction s as [|c s IH]; cbn [append]; [reflexivity|now rewrite IH]. Qed.

Lemma append_assoc a b c : ((a ++ b) ++ c)%string = (a ++ (b ++ c))%string.
Proof. induction a as [|x a IH]; cbn [append]; [reflexivity|now rewrite IH]. Qed.

Lemma span_digits_spec s d r :
  span_digits s = (d, r) ->
  s = (d ++ r)%string /\ Request.all_digits d = true.
Proof.
  revert d r. induction s as [|c s IH]; intros d r H; cbn [span_digits] in H.
  - injection H as <- <-. now split.
  - destruct (Py.isdigit c) eqn:Ec.
    + destruct (span_digits s) as [d' r'] eqn:Es. injection H as <- <-.
      destruct (IH d' r' eq_refl) as (-> & Hd).
      cbn [Request.all_digits]. rewrite Ec, Hd. now split.
    + injection H as <- <-. now split.
Qed.

Lemma split_colon_digits d r :
  Request.all_digits d = true ->
  Request.split_colon (d ++ String ":"%char r) = Some (d, r).
Proof.
  induction d as [|c d IH]; intros Hd; [reflexivity|].
  cbn [Request.all_digits] in Hd. apply andb_prop in Hd as [Hc Hd].
  cbn [append Request.split_colon].
  destruct (Ascii.eqb c ":") eqn:E.
  - apply Ascii.eqb_eq in E. subst c. discriminate Hc.
  - now rewrite (IH Hd).
Qed.

(** What the regular expression lets through: two decimal integers with a
    colon between them, and possibly one line feed after them. *)
Lemma match_range_form s g1 g2 :
  match_range s = Some (g1, g2) ->
  Request.well_formed (g1 ++ String ":"%char g2) = true /\
  (s = (g1 ++ String ":"%char g2)%string \/
   s = ((g1 ++ String ":"%char g2) ++ Request.line_feed)%string).
Proof.
  unfold match_range. intros H.
  destruct (span_digits s) as [d1 r1] eqn:E1.
  apply span_digits_spec in E1 as (-> & Hd1).
  destruct d1 as [|c1 d1]; [discriminate|].
  destruct r1 as [|c r2]; [discriminate|].
  destruct (Ascii.eqb_spec c ":"%char) as [->|Hne].
  2:{ exfalso. revert H. clear -Hne.
      destruct c as [[] [] [] [] [] [] [] []]; try discriminate; congruence. }
  destruct (span_digits r2) as [d2 r3] eqn:E2.
  apply span_digits_spec in E2 as (-> & Hd2).
  destruct d2 as [|c2 d2]; [discriminate|].
  assert (Hform : Request.well_formed
            (String c1 d1 ++ String ":"%char (String c2 d2)) = true).
  { unfold Request.well_formed. rewrite split_colon_digits by exact Hd1.
    cbn [Request.is_decimal]. now rewrite Hd1, Hd2. }
  destruct r3 as [|c3 r3].
  - injection H as <- <-. split; [exact Hform|]. left.
    now rewrite append_empty_r.
  - destruct r3; [|destruct c3 as [[] [] [] [] [] [] [] []]; discriminate].
    destruct (Ascii.eqb_spec c3 "010"%char) as [->|Hne].
    2:{ exfalso. revert H. clear -Hne.
        destruct c3 as [[] [] [] [] [] [] [] []]; try discriminate; congruence. }
    injection H as <- <-. split; [exact Hform|]. right.
    now rewrite append_assoc.
Qed.

(** [parse_memory_range] returns a pair only for a request of the form
    [start:end], possibly followed by one line feed, whose values satisfy
    [0 <= start <= end < memory_size]. *)
Lemma parse_memory_range_accepts s memory_size start end_ :
  parse_memory_range s memory_size = inr (start, end_) ->
  exists g1 g2,
    match_range s = Some (g1, g2) /\
    Py.int g1 = Some start /\ Py.int g2 = Some end_ /\
    0 <= start <= end_ /\ end_ < memory_size.
Proof.
  unfold parse_memory_range. intros H.
  destruct (match_range s) as [[g1 g2]|] eqn:Em; [|discriminate].
  destruct (Py.int g1) as [v1|] eqn:E1; [|discriminate].
  destruct (Py.int g2) as [v2|] eqn:E2; [|discriminate].
  destruct (_ || _) eqn:E; [discriminate|]. injection H as <- <-.
  exists g1, g2. split; [reflexivity|]. split; [exact E1|].
  split; [exact E2|]. split; lia.
Qed.

(** How a run of the interpreter ends: with status 1 and no result
    document, or with status 0 and the document, the latter only once
    [execute] has halted and the request has been accepted. *)
Lemma main_outcome input range :
  (result_file (main input range) = None /\
   exit_status (main input range) = Some 1) \/
  (exists start end_ doc,
     parse_memory_range range 256 = inr (start, end_) /\
     main input range = Effects (Some doc) [] (Some 0)).
Proof.
  unfold main. destruct input as [binary_data|]; [|left; now split].
  destruct (execute_fuel_enough (length binary_data) (load_program (init 256) binary_data))
    as [(vm' & He & Hr & _)|(e & vm' & He & _)]; [cbn; lia| |].
  - unfold execute. cbn [program load_program]. rewrite He.
    destruct (reachable_invariant 256 binary_data vm' Hr) as (_ & _ & ->).
    change (Z.of_nat 256) with 256.
    destruct (parse_memory_range range 256) as [e|[start end_]];
      [left; now split|right]. now exists start, end_, (get_memory_slice vm' start end_).
  - unfold execute. cbn [program load_program]. rewrite He. left. now split.
Qed.

(** C9, at the request ["0:0\n"].  The request is not of the form
    [start:end]: a line feed follows the second integer.  The interpreter
    accepts it all the same (the [$] of the regular expression matches
    before a final line feed), writes the result document and exits with
    status 0. *)
Theorem range_with_trailing_newline :
  Request.well_formed newline_request = false /\
  main (Some []) newline_request = Effects (Some [0]) [] (Some 0).
Proof. split; [reflexivity | vm_compute; reflexivity]. Qed.

(** Invalid requests, up to a final line feed.  A request is rejected,
    with exit status 1 and no result document, when it is neither of the
    form [start:end] nor of that form followed by one line feed, and when
    its values do not satisfy [start <= end < 256]; so is ["5:2"]. *)
Theorem invalid_range_rejected input range :
  (forall s', Request.well_formed s' = true ->
              range <> s' /\ range <> (s' ++ Request.line_feed)%string) \/
  (exists g1 g2 start end_,
     match_range range = Some (g1, g2) /\
     Py.int g1 = Some start /\ Py.int g2 = Some end_ /\
     ~ start <= end_ < 256) ->
  result_file (main input range) = None /\
  exit_status (main input range) = Some 1.
Proof.
  intros Hbad.
  destruct (main_outcome input range) as [Hrej|(start & end_ & doc & Hp & _)];
    [exact Hrej|exfalso].
  apply parse_memory_range_accepts in Hp as (g1 & g2 & Hm & H1 & H2 & Hle & Hlt).
  destruct Hbad as [Hform|(g1' & g2' & start' & end' & Hm' & H1' & H2' & Hviol)].
  - destruct (match_range_form range g1 g2 Hm) as [Hwf Hs].
    destruct (Hform _ Hwf) as [Hne1 Hne2]. destruct Hs; contradiction.
  - rewrite Hm in Hm'. injection Hm' as <- <-.
    rewrite H1 in H1'. rewrite H2 in H2'. injection H1' as <-. injection H2' as <-.
    apply Hviol. lia.
Qed.

Lemma invalid_range_rejected_witness :
  (exists g1 g2 start end_,
     match_range "5:2" = Some (g1, g2) /\
     Py.int g1 = Some start /\ Py.int g2 = Some end_ /\
     ~ start <= end_ < 256) /\
  result_file (main (Some []) "5:2") = None /\
  exit_status (main (Some []) "5:2") = Some 1.
Proof.
  assert (Hviol : exists g1 g2 start end_,
     match_range "5:2" = Some (g1, g2) /\
     Py.int g1 = Some start /\ Py.int g2 = Some end_ /\
     ~ start <= end_ < 256).
  { exists "5"%string, "2"%string, 5, 2. repeat split. lia. }
  split; [exact Hviol|].
  exact (invalid_range_rejected (Some []) "5:2" (or_intror Hviol)).
Defined.

End Requests.

(** * Further properties *)

(** ** The checks of the encoder, in their order *)

Section EncoderErrors.
Import Assembler Codec Program.

Lemma known_mnemonic mnemonic A :
  dict_get OPCODES mnemonic = Some A ->
  (mnemonic = "LOAD_CONST"%string /\ A = 57) \/
  (mnemonic = "READ_MEM"%string /\ A = 28) \/
  (mnemonic = "WRITE_MEM"%string /\ A = 61) \/
  (mnemonic = "LEQ"%string /\ A = 19).
Proof.
  unfold OPCODES. cbn [dict_get].
  repeat match goal with
  | |- (if String.eqb ?k mnemonic then _ else _) = _ -> _ =>
      destruct (String.eqb_spec k mnemonic) as [<-|?]
  end; intros [= <-]; auto 6.
Qed.

Lemma unknown_mnemonic mnemonic :
  mnemonic <> "LOAD_CONST"%string -> mnemonic <> "READ_MEM"%string ->
  mnemonic <> "WRITE_MEM"%string -> mnemonic <> "LEQ"%string ->
  dict_get OPCODES mnemonic = None.
Proof.
  intros H1 H2 H3 H4.
  destruct (dict_get OPCODES mnemonic) as [A|] eqn:E; [|reflexivity].
  apply known_mnemonic in E. intuition congruence.
Qed.

(** The body of the branch a known mnemonic selects. *)
Ltac dispatch :=
  unfold encode_instruction;
  repeat match goal with
  | |- context [dict_get OPCODES ?m] =>
      let v := eval vm_compute in (dict_get OPCODES m) in
      change (dict_get OPCODES m) with v
  | |- context [String.eqb ?a ?b] =>
      let v := eval vm_compute in (String.eqb a b) in
      change (String.eqb a b) with v
  end; cbv iota.

(** X2. A mnemonic that is not one of the four keys of [OPCODES], spelt
    in upper case, is refused with the unknown-mnemonic error before any
    operand is looked at. *)
Theorem encode_unknown_mnemonic mnemonic operands line_num :
  mnemonic <> "LOAD_CONST"%string -> mnemonic <> "READ_MEM"%string ->
  mnemonic <> "WRITE_MEM"%string -> mnemonic <> "LEQ"%string ->
  encode_instruction mnemonic operands line_num
  = inl (UnknownMnemonic line_num mnemonic).
Proof.
  intros H1 H2 H3 H4. unfold encode_instruction.
  now rewrite unknown_mnemonic.
Qed.

Lemma encode_unknown_mnemonic_witness :
  "leq"%string <> "LOAD_CONST"%string /\ "leq"%string <> "READ_MEM"%string /\
  "leq"%string <> "WRITE_MEM"%string /\ "leq"%string <> "LEQ"%string /\
  encode_instruction "leq" ["0"; "2"; "1"]%string 4 = inl (UnknownMnemonic 4 "leq").
Proof.
  assert (H1 : "leq"%string <> "LOAD_CONST"%string) by discriminate.
  assert (H2 : "leq"%string <> "READ_MEM"%string) by discriminate.
  assert (H3 : "leq"%string <> "WRITE_MEM"%string) by discriminate.
  assert (H4 : "leq"%string <> "LEQ"%string) by discriminate.
  repeat (split; [assumption|]).
  exact (encode_unknown_mnemonic "leq" _ 4%nat H1 H2 H3 H4).
Defined.

(** X3. A known mnemonic with the wrong number of operands (not 2 for
    LOAD_CONST and READ_MEM, not 3 for WRITE_MEM and LEQ) is refused with
    the operand-count error, whatever the operand tokens are: the count
    is checked before any token is read as an integer. *)
Theorem encode_operand_count mnemonic A operands line_num :
  dict_get OPCODES mnemonic = Some A ->
  length operands <> arity mnemonic ->
  encode_instruction mnemonic operands line_num
  = inl (OperandCount line_num mnemonic).
Proof.
  intros HA Hlen.
  destruct (known_mnemonic _ _ HA) as [[-> ->]|[[-> ->]|[[-> ->]|[-> ->]]]];
    dispatch; change (arity _) with 2%nat in Hlen || change (arity _) with 3%nat in Hlen;
    apply Nat.eqb_neq in Hlen; now rewrite Hlen.
Qed.

Lemma encode_operand_count_witness :
  dict_get OPCODES "LEQ" = Some 19 /\
  length ["x"; "7"]%string <> arity "LEQ" /\
  encode_instruction "LEQ" ["x"; "7"]%string 2 = inl (OperandCount 2 "LEQ").
Proof.
  assert (HA : dict_get OPCODES "LEQ" = Some 19) by reflexivity.
  assert (Hlen : length ["x"; "7"]%string <> arity "LEQ") by discriminate.
  split; [exact HA|]. split; [exact Hlen|].
  exact (encode_operand_count "LEQ" 19 _ 2%nat HA Hlen).
Defined.

Lemma map_int_first_bad pre t post :
  Forall (fun x => is_Some (Py.int x)) pre -> Py.int t = None ->
  map_int (pre ++ t :: post) = inl (InvalidLiteral t).
Proof.
  intros Hpre Ht. induction Hpre as [|x pre [v Hv] _ IH]; cbn [app map_int].
  - now rewrite Ht.
  - now rewrite Hv, IH.
Qed.

(** X4. With the right number of operands, the first token that [int]
    does not read stops the encoder with the invalid-literal error of that
    token, even when an earlier operand is out of range: all tokens are
    read before any range is checked. *)
Theorem encode_invalid_literal mnemonic A pre t post line_num :
  dict_get OPCODES mnemonic = Some A ->
  length (pre ++ t :: post) = arity mnemonic ->
  Forall (fun x => is_Some (Py.int x)) pre -> Py.int t = None ->
  encode_instruction mnemonic (pre ++ t :: post) line_num
  = inl (InvalidLiteral t).
Proof.
  intros HA Hlen Hpre Ht.
  pose proof (map_int_first_bad pre t post Hpre Ht) as Hm.
  destruct (known_mnemonic _ _ HA) as [[-> ->]|[[-> ->]|[[-> ->]|[-> ->]]]];
    dispatch; rewrite Hlen, Hm; reflexivity.
Qed.

Lemma encode_invalid_literal_witness :
  dict_get OPCODES "LOAD_CONST" = Some 57 /\
  length ["99999999999"; "1.5"]%string = arity "LOAD_CONST" /\
  Forall (fun x => is_Some (Py.int x)) ["99999999999"%string] /\
  Py.int "1.5" = None /\
  encode_instruction "LOAD_CONST" ["99999999999"; "1.5"]%string 9
  = inl (InvalidLiteral "1.5").
Proof.
  assert (HA : dict_get OPCODES "LOAD_CONST" = Some 57) by reflexivity.
  assert (Hlen : length ["99999999999"; "1.5"]%string = arity "LOAD_CONST")
    by reflexivity.
  assert (Hpre : Forall (fun x => is_Some (Py.int x)) ["99999999999"%string]).
  { constructor; [|constructor]. exists 99999999999. reflexivity. }
  assert (Ht : Py.int "1.5" = None) by reflexivity.
  split; [exact HA|]. split; [exact Hlen|]. split; [exact Hpre|]. split; [exact Ht|].
  exact (encode_invalid_literal "LOAD_CONST" 57 ["99999999999"%string] "1.5" []
           9%nat HA Hlen Hpre Ht).
Defined.

Lemma map_int_error_token operands e :
  map_int operands = inl e ->
  exists t, e = InvalidLiteral t /\ In t operands /\ Py.int t = None.
Proof.
  induction operands as [|x xs IH]; cbn [map_int]; [discriminate|].
  destruct (Py.int x) eqn:Ex.
  - destruct (map_int xs) as [e'|vs]; [|discriminate]. intros [= <-].
    destruct (IH eq_refl) as (t & -> & Hin & Ht). exists t. cbn. auto.
  - intros [= <-]. exists x. cbn. auto.
Qed.

Lemma encode_map_int_error mnemonic A operands line_num e :
  dict_get OPCODES mnemonic = Some A ->
  length operands = arity mnemonic ->
  map_int operands = inl e ->
  encode_instruction mnemonic operands line_num = inl e.
Proof.
  intros HA Hlen Hm.
  destruct (known_mnemonic _ _ HA) as [[-> ->]|[[-> ->]|[[-> ->]|[-> ->]]]];
    dispatch; rewrite Hlen, Hm; reflexivity.
Qed.

(** The values of a full operand list name an instruction of the
    mnemonic. *)
Lemma operands_instr mnemonic A operands vs :
  dict_get OPCODES mnemonic = Some A ->
  length operands = arity mnemonic ->
  map_int operands = inr vs ->
  exists i, mnemonic_of i = mnemonic /\ operand_values i = vs.
Proof.
  intros HA Hlen Hm. apply map_int_length in Hm. rewrite Hlen in Hm.
  destruct (known_mnemonic _ _ HA) as [[-> ->]|[[-> ->]|[[-> ->]|[-> ->]]]];
    cbn in Hm; destruct vs as [|B [|C [|D [|? ?]]]]; try discriminate.
  - now exists (Interpreter.LOAD_CONST B C).
  - now exists (Interpreter.READ_MEM B C).
  - now exists (Interpreter.WRITE_MEM B C D).
  - now exists (Interpreter.LEQ B C D).
Qed.

Lemma fits_dec i : fits i \/ ~ fits i.
Proof. unfold fits, fits_width. destruct i; lia. Qed.

(** How a call of [encode_instruction] ends, in the order of its checks. *)
Lemma encode_cases mnemonic operands line_num :
  (dict_get OPCODES mnemonic = None /\
   encode_instruction mnemonic operands line_num
   = inl (UnknownMnemonic line_num mnemonic)) \/
  (length operands <> arity mnemonic /\
   encode_instruction mnemonic operands line_num
   = inl (OperandCount line_num mnemonic)) \/
  (exists t, In t operands /\ Py.int t = None /\
   encode_instruction mnemonic operands line_num = inl (InvalidLiteral t)) \/
  (exists i fields,
     mnemonic_of i = mnemonic /\ map_int operands = inr (operand_values i) /\
     ~ fits i /\
     encode_instruction mnemonic operands line_num
     = inl (OperandOutOfRange line_num mnemonic fields)) \/
  (exists i,
     mnemonic_of i = mnemonic /\ map_int operands = inr (operand_values i) /\
     fits i /\
     encode_instruction mnemonic operands line_num
     = inr (Py.be_digits (Interpreter.width i) (packed i), entry_of i)).
Proof.
  destruct (dict_get OPCODES mnemonic) as [A|] eqn:HA.
  2:{ left. split; [reflexivity|]. unfold encode_instruction. now rewrite HA. }
  right. destruct (Nat.eq_dec (length operands) (arity mnemonic)) as [Hlen|Hlen].
  2:{ left. split; [exact Hlen|]. now apply (encode_operand_count _ A). }
  right. destruct (map_int operands) as [e|vs] eqn:Hm.
  { left. destruct (map_int_error_token _ _ Hm) as (t & -> & Hin & Ht).
    exists t. split; [exact Hin|]. split; [exact Ht|].
    now apply (encode_map_int_error _ A). }
  right. destruct (operands_instr _ _ _ _ HA Hlen Hm) as (i & <- & <-).
  destruct (fits_dec i) as [Hfit|Hunfit].
  - right. exists i. repeat split; try assumption. now apply encode_fits.
  - left. destruct (encode_unfit i operands line_num Hunfit Hm) as [fields Hf].
    exists i, fields. now repeat split.
Qed.

(** A call that returns has passed every check. *)
Lemma encode_inr mnemonic operands line_num encoded entry :
  encode_instruction mnemonic operands line_num = inr (encoded, entry) ->
  exists i,
    mnemonic_of i = mnemonic /\ map_int operands = inr (operand_values i) /\
    fits i /\
    encoded = Py.be_digits (Interpreter.width i) (packed i) /\
    entry = entry_of i.
Proof.
  intros H.
  destruct (encode_cases mnemonic operands line_num)
    as [[_ E]|[[_ E]|[(t & _ & _ & E)|[(i & f & _ & _ & _ & E)|(i & Hm & Hops & Hfit & E)]]]];
    rewrite E in H; try discriminate.
  injection H as <- <-. now exists i.
Qed.

(** X5. Whenever [encode_instruction] returns, the mnemonic and the
    operand tokens name an instruction whose operands fit their fields;
    the bytes returned are as many as the opcode is wide (6, 2 or 3), they
    are the big-endian digits of the packed fields, unused bits zero, and
    the trace entry holds the numeric code and the operands as given. *)
Theorem encode_success mnemonic operands line_num encoded entry :
  encode_instruction mnemonic operands line_num = inr (encoded, entry) ->
  exists i,
    mnemonic_of i = mnemonic /\ map_int operands = inr (operand_values i) /\
    fits i /\
    encoded = Py.be_digits (Interpreter.width i) (packed i) /\
    length encoded = Interpreter.width i /\
    Py.from_bytes encoded = packed i /\
    entry = entry_of i.
Proof.
  intros H. apply encode_inr in H as (i & Hm & Hops & Hfit & -> & ->).
  exists i. split; [exact Hm|]. split; [exact Hops|]. split; [exact Hfit|].
  split; [reflexivity|]. split; [apply length_be_digits|]. split; [|reflexivity].
  rewrite from_bytes_be_digits. apply Z.mod_small. now apply packed_range.
Qed.

Lemma encode_success_witness :
  encode_instruction "READ_MEM" ["3"; "4"]%string 1
    = inr ([x70; x64], LogEntry "READ_MEM" 28 3 4 None) /\
  exists i,
    mnemonic_of i = "READ_MEM"%string /\
    map_int ["3"; "4"]%string = inr (operand_values i) /\
    fits i /\
    [x70; x64] = Py.be_digits (Interpreter.width i) (packed i) /\
    length [x70; x64] = Interpreter.width i /\
    Py.from_bytes [x70; x64] = packed i /\
    LogEntry "READ_MEM" 28 3 4 None = entry_of i.
Proof.
  assert (H : encode_instruction "READ_MEM" ["3"; "4"]%string 1
              = inr ([x70; x64], LogEntry "READ_MEM" 28 3 4 None)) by reflexivity.
  split; [exact H|].
  exact (encode_success "READ_MEM" _ 1%nat _ _ H).
Defined.



End EncoderErrors.

(** ** What the decoder accepts *)

Section Canonical.
Import Interpreter Codec Machine Program Samples.

Lemma from_bytes_range (bs : list byte) :
  0 <= Py.from_bytes bs < 256 ^ Z.of_nat (length bs).
Proof.
  induction bs as [|b bs IH]; [cbn; lia|].
  rewrite from_bytes_cons. pose proof (byte_to_Z_range b).
  rewrite length_cons, Nat2Z.inj_succ, Z.pow_succ_r by lia.
  assert (0 < 256 ^ Z.of_nat (length bs)) by (apply Z.pow_pos_nonneg; lia).
  nia.
Qed.

(** The slice [decode] reads, when the image is long enough: the byte at
    [pc] and the [w - 1] bytes after it. *)
Lemma slice_at (program : list byte) pc w b :
  program !! pc = Some b -> (pc + S w <= length program)%nat ->
  exists rest, Py.slice program pc (pc + S w) = b :: rest /\ length rest = w.
Proof.
  intros Hb Hlen. unfold Py.slice.
  replace (pc + S w - pc)%nat with (S w) by lia.
  rewrite (drop_S _ _ _ Hb). cbn [take]. eexists. split; [reflexivity|].
  rewrite length_take, length_drop. lia.
Qed.

(** The value of the slice, split at its first byte. *)
Lemma slice_value (program : list byte) pc w b :
  program !! pc = Some b -> (pc + S w <= length program)%nat ->
  exists low,
    Py.from_bytes (Py.slice program pc (pc + S w))
    = Py.byte_to_Z b * 256 ^ Z.of_nat w + low /\
    0 <= low < 256 ^ Z.of_nat w.
Proof.
  intros Hb Hlen. destruct (slice_at program pc w b Hb Hlen) as (rest & -> & Hr).
  exists (Py.from_bytes rest). rewrite from_bytes_cons, Hr.
  split; [reflexivity|]. rewrite <- Hr. apply from_bytes_range.
Qed.

Ltac solve_canonical :=
  masks_as_ones; rewrite ?field_spec, ?Z.land_ones by lia;
  Z.div_mod_to_equations; lia.

(** Turn the tests [decode] has passed into facts. *)
Ltac decode_facts :=
  repeat match goal with
  | H : (_ =? _) = true |- _ => apply Z.eqb_eq in H
  | H : (_ =? _) = false |- _ => clear H
  | H : (_ <? _)%nat = false |- _ => apply Nat.ltb_ge in H
  end.

Lemma decode_fetch program pc i :
  decode program pc = inr i ->
  exists b,
    program !! pc = Some b /\ (pc + width i <= length program)%nat /\
    declared (discriminant b) = Some (mnemonic_of i, width i).
Proof.
  unfold decode. destruct (program !! pc) as [b|] eqn:Hb; [|discriminate].
  rewrite opcode_of_byte. fold (discriminant b).
  repeat match goal with
  | |- (if ?c then _ else _) = _ -> _ => destruct c eqn:?
  end; try discriminate; intros [= <-];
  exists b; cbn [width mnemonic_of]; (split; [reflexivity|]);
  (split; [match goal with H : (_ <? _)%nat = false |- _ =>
             apply Nat.ltb_ge in H; lia end|]);
  unfold declared;
  repeat match goal with
  | H : (discriminant b =? _) = _ |- _ => rewrite H; clear H
  end; reflexivity.
Qed.

Lemma decode_value program pc i :
  decode program pc = inr i ->
  let n := Py.from_bytes (Py.slice program pc (pc + width i)) in
  packed i = n - n mod 2 ^ unused_bits i.
Proof.
  unfold decode. destruct (program !! pc) as [b|] eqn:Hb; [|discriminate].
  rewrite opcode_of_byte. pose proof (byte_to_Z_range b) as Hbr.
  repeat match goal with
  | |- (if ?c then _ else _) = _ -> _ => destruct c eqn:?
  end; try discriminate; intros [= <-]; decode_facts;
  cbn [width unused_bits packed]; cbv zeta;
  match goal with
  | |- context [Py.slice program pc (pc + S ?w)] =>
      let low := fresh "low" in let Hlow := fresh "Hlow" in
      destruct (slice_value program pc w b Hb) as (low & -> & Hlow); [lia|];
      let v := eval vm_compute in (256 ^ Z.of_nat w) in
      change (256 ^ Z.of_nat w) with v in *
  end; solve_canonical.
Qed.

(** X7. What [decode] accepts.  When [decode] returns an instruction, the
    image holds all its bytes, every operand fits its field, and the
    packed fields are the value of the slice with the unused trailing bits
    (6 for LOAD_CONST, none for READ_MEM, 3 for WRITE_MEM and LEQ)
    cleared: these bits are ignored.  Encoding the instruction afresh
    gives bytes that decode to it again. *)
Theorem decode_canonical program pc i :
  decode program pc = inr i ->
  let n := Py.from_bytes (Py.slice program pc (pc + width i)) in
  (pc + width i <= length program)%nat /\
  fits i /\
  packed i = n - n mod 2 ^ unused_bits i /\
  forall pre post,
    decode (pre ++ Py.be_digits (width i) (packed i) ++ post) (length pre) = inr i.
Proof.
  intros Hdec. cbv zeta.
  destruct (decode_fetch _ _ _ Hdec) as (b & _ & Hlen & _).
  split; [exact Hlen|]. split; [now apply decode_fits in Hdec|].
  split; [exact (decode_value _ _ _ Hdec)|].
  intros pre post. apply decode_packed. now apply decode_fits in Hdec.
Qed.

Lemma decode_canonical_witness :
  decode noisy_load_image 0 = inr (LOAD_CONST 10 0) /\
  (0 + width (LOAD_CONST 10 0) <= length noisy_load_image)%nat /\
  fits (LOAD_CONST 10 0) /\
  packed (LOAD_CONST 10 0)
  = Py.from_bytes (Py.slice noisy_load_image 0 (0 + width (LOAD_CONST 10 0)))
    - Py.from_bytes (Py.slice noisy_load_image 0 (0 + width (LOAD_CONST 10 0)))
      mod 2 ^ unused_bits (LOAD_CONST 10 0) /\
  forall pre post,
    decode (pre ++ Py.be_digits (width (LOAD_CONST 10 0)) (packed (LOAD_CONST 10 0))
                ++ post) (length pre) = inr (LOAD_CONST 10 0).
Proof.
  assert (H : decode noisy_load_image 0 = inr (LOAD_CONST 10 0)) by reflexivity.
  split; [exact H|].
  exact (decode_canonical noisy_load_image 0%nat _ H).
Defined.

End Canonical.

(** ** The other instructions, and the errors of a run *)

Section MachineRules.
Import Interpreter Codec Machine Program Examples Samples.

(** X8. LOAD_CONST semantics: on a machine with its 32 registers, a
    decoded [LOAD_CONST B C] never raises; it puts [B], a value of 31
    bits, into register [C], leaves every other register, the memory and
    the image as they were, and advances [pc] by 6. *)
Theorem load_const_semantics vm B C :
  well_formed vm -> decode (program vm) (pc vm) = inr (LOAD_CONST B C) ->
  exists vm',
    step vm = Continue vm' /\
    0 <= B <= 2 ^ 31 - 1 /\
    registers vm' !! Z.to_nat C = Some B /\
    (forall k, k <> Z.to_nat C -> registers vm' !! k = registers vm !! k) /\
    length (registers vm') = 32%nat /\
    memory vm' = memory vm /\
    program vm' = program vm /\
    pc vm' = (pc vm + 6)%nat.
Proof.
  intros Hwf Hdec. destruct (decode_fits _ _ _ Hdec) as (FB & FC).
  eexists. split; [exact (step_LOAD_CONST vm B C Hwf Hdec)|].
  cbn [registers memory program pc]. unfold well_formed, fits_width in *.
  split; [lia|]. split; [apply list_lookup_insert_eq; lia|].
  split; [intros k Hk; now apply list_lookup_insert_ne|].
  split; [now rewrite length_insert|]. auto.
Qed.

Lemma load_const_semantics_witness :
  well_formed (fresh 256 load_image) /\
  decode (program (fresh 256 load_image)) (pc (fresh 256 load_image))
    = inr (LOAD_CONST 10 0) /\
  exists vm',
    step (fresh 256 load_image) = Continue vm' /\
    0 <= 10 <= 2 ^ 31 - 1 /\
    registers vm' !! Z.to_nat 0 = Some 10 /\
    (forall k, k <> Z.to_nat 0 ->
               registers vm' !! k = registers (fresh 256 load_image) !! k) /\
    length (registers vm') = 32%nat /\
    memory vm' = memory (fresh 256 load_image) /\
    program vm' = program (fresh 256 load_image) /\
    pc vm' = (pc (fresh 256 load_image) + 6)%nat.
Proof.
  assert (Hwf : well_formed (fresh 256 load_image)) by reflexivity.
  assert (Hdec : decode (program (fresh 256 load_image)) (pc (fresh 256 load_image))
                 = inr (LOAD_CONST 10 0)) by reflexivity.
  split; [exact Hwf|]. split; [exact Hdec|].
  exact (load_const_semantics (fresh 256 load_image) 10 0 Hwf Hdec).
Defined.



(** X10. Unknown opcode: when the leading six bits of the byte at [pc]
    are the numeric code of no opcode, the iteration raises the
    unknown-opcode error with these six bits and [pc], and the state at
    the raise is the state before the fetch.  [execute] started there ends
    with that error in that state. *)
Theorem unknown_opcode vm b :
  program vm !! pc vm = Some b ->
  declared (discriminant b) = None ->
  step vm = Raise (UnknownOpcode (discriminant b) (pc vm)) vm /\
  forall fuel,
    execute_fuel (S fuel) vm = Raised (UnknownOpcode (discriminant b) (pc vm)) vm.
Proof.
  intros Hb Hop.
  assert (Hpc : (pc vm < length (program vm))%nat) by now apply lookup_lt_Some in Hb.
  assert (Hstep : step vm = Raise (UnknownOpcode (discriminant b) (pc vm)) vm).
  { unfold step, decode. rewrite Hb, opcode_of_byte. fold (discriminant b).
    unfold declared in Hop.
    repeat match type of Hop with
    | (if ?c then _ else _) = _ => destruct c
    end; try discriminate. reflexivity. }
  split; [exact Hstep|]. intros fuel. now apply execute_fuel_raise.
Qed.

Lemma unknown_opcode_witness :
  program at_zero_byte !! pc at_zero_byte = Some x00 /\
  declared (discriminant x00) = None /\
  step at_zero_byte
    = Raise (UnknownOpcode (discriminant x00) (pc at_zero_byte)) at_zero_byte /\
  forall fuel,
    execute_fuel (S fuel) at_zero_byte
    = Raised (UnknownOpcode (discriminant x00) (pc at_zero_byte)) at_zero_byte.
Proof.
  assert (Hb : program at_zero_byte !! pc at_zero_byte = Some x00) by reflexivity.
  assert (Hop : declared (discriminant x00) = None) by reflexivity.
  split; [exact Hb|]. split; [exact Hop|].
  exact (unknown_opcode at_zero_byte x00 Hb Hop).
Defined.

(** The errors of one iteration on a machine with its 32 registers. *)
Lemma step_error_kinds vm e vm' :
  well_formed vm -> (pc vm < length (program vm))%nat ->
  step vm = Raise e vm' -> raised_by_execute e.
Proof.
  intros Hwf Hpc Hs. unfold step in Hs.
  destruct (decode (program vm) (pc vm)) as [e0|i] eqn:Hdec.
  - injection Hs as <- _. unfold decode in Hdec.
    destruct (lookup_lt_is_Some_2 _ _ Hpc) as [b Hb]. rewrite Hb in Hdec.
    repeat match type of Hdec with
    | (if ?c then _ else _) = _ => destruct c
    end; try discriminate; injection Hdec as <-; exact I.
  - fold (step vm) in Hs. assert (Hs' : step vm = Raise e vm').
    { unfold step. now rewrite Hdec. }
    clear Hs. pose proof (decode_fits _ _ _ Hdec) as Hfit.
    destruct i as [B C|B C|B C D|B C D]; cbn [fits] in Hfit.
    + rewrite (step_LOAD_CONST vm B C Hwf Hdec) in Hs'. discriminate.
    + destruct Hfit as [FB FC].
      destruct (register_lookup vm C Hwf FC) as (addr & HC & _).
      destruct (step_READ_MEM vm B C addr Hwf Hdec HC)
        as [[_ Hr]|(v & _ & _ & Hc)]; rewrite Hs' in *; [|discriminate].
      injection Hr as -> _. exact I.
    + destruct Hfit as (FB & FC & FD).
      destruct (register_lookup vm C Hwf FC) as (base & HC & _).
      destruct (register_lookup vm B Hwf FB) as (val & HB & _).
      rewrite (step_WRITE_MEM vm B C D base val Hwf Hdec HC HB) in Hs'.
      destruct (outside vm (base + D)); [|discriminate].
      injection Hs' as <- _. exact I.
    + destruct Hfit as (FB & FC & FD).
      destruct (register_lookup vm B Hwf FB) as (vB & HB & _).
      destruct (register_lookup vm D Hwf FD) as (vD & HD & _).
      rewrite (step_LEQ vm B C D vB vD Hwf Hdec HB HD) in Hs'. discriminate.
Qed.

(** X11. The errors of a run.  Started on a fresh machine, on any image
    and with any memory size, [execute] raises nothing but its own three
    errors (not enough bytes, address outside the memory, unknown opcode):
    no register or memory subscript ever fails.  The state at the raise is
    a state of the run, inside the image, at which the iteration raises
    that error. *)
Theorem execute_error_kinds memory_size image e vm' :
  execute (fresh memory_size image) = Raised e vm' ->
  raised_by_execute e /\
  reachable (fresh memory_size image) vm' /\
  (pc vm' < length image)%nat /\
  step vm' = Raise e vm'.
Proof.
  intros He. unfold execute in He.
  destruct (execute_fuel_enough (length (program (fresh memory_size image)))
              (fresh memory_size image))
    as [(vm1 & He1 & _)|(e1 & vm1 & He1 & Hr & Hpc & Hs)]; [lia| |];
    rewrite He1 in He; [discriminate|]. injection He as <- <-.
  destruct (reachable_invariant _ _ _ Hr) as (Hwf & _ & _).
  split; [exact (step_error_kinds vm1 e1 vm1 Hwf Hpc Hs)|].
  split; [exact Hr|]. split; [|exact Hs].
  apply reachable_pc in Hr as [_ Hprog]. now rewrite Hprog in Hpc.
Qed.

Lemma execute_error_kinds_witness :
  execute (fresh 256 [x00]) = Raised (UnknownOpcode 0 0) (fresh 256 [x00]) /\
  raised_by_execute (UnknownOpcode 0 0) /\
  reachable (fresh 256 [x00]) (fresh 256 [x00]) /\
  (pc (fresh 256 [x00]) < length [x00])%nat /\
  step (fresh 256 [x00]) = Raise (UnknownOpcode 0 0) (fresh 256 [x00]).
Proof.
  assert (H : execute (fresh 256 [x00])
              = Raised (UnknownOpcode 0 0) (fresh 256 [x00])) by reflexivity.
  split; [exact H|].
  exact (execute_error_kinds 256 [x00] _ _ H).
Defined.

End MachineRules.

(** ** Runs over the image of an instruction sequence *)

Section Sequencing.
Import Interpreter Codec Machine Program Examples Samples.

Lemma apply_continue i vm vm' :
  apply i vm = Continue vm' ->
  program vm' = program vm /\ pc vm' = (pc vm + width i)%nat.
Proof.
  destruct i; cbn [apply width]; intros H;
  repeat match type of H with
  | subscript _ ?o _ = _ => destruct o; cbn [subscript] in H
  | (if ?c then _ else _) = _ => destruct c
  end; try discriminate; injection H as <-; now split.
Qed.

Lemma setitem_insert {A} (l l' : list A) i v :
  Py.setitem l i v = Some l' -> exists k, l' = <[k := v]> l.
Proof.
  unfold Py.setitem. destruct (Py.index l i) as [k|]; [|discriminate].
  intros [= <-]. now exists k.
Qed.

(** X12. Frame of one iteration.  An iteration that goes on has decoded
    an instruction at [pc]; it leaves the image and the number of
    registers and of memory cells as they were and moves [pc] past the
    instruction.  WRITE_MEM leaves the registers alone and changes at most
    one memory cell; the other three leave the memory alone and change at
    most one register. *)
Theorem step_frame vm vm' :
  step vm = Continue vm' ->
  exists i,
    decode (program vm) (pc vm) = inr i /\
    program vm' = program vm /\ pc vm' = (pc vm + width i)%nat /\
    length (registers vm') = length (registers vm) /\
    length (memory vm') = length (memory vm) /\
    match i with
    | WRITE_MEM _ _ _ =>
        registers vm' = registers vm /\
        exists k v, memory vm' = <[k := v]> (memory vm)
    | _ =>
        memory vm' = memory vm /\
        exists k v, registers vm' = <[k := v]> (registers vm)
    end.
Proof.
  unfold step. destruct (decode (program vm) (pc vm)) as [e|i]; [discriminate|].
  intros H. exists i. split; [reflexivity|].
  destruct i; cbn [apply] in H;
  repeat match type of H with
  | subscript _ (Py.setitem ?l ?k ?v) _ = _ =>
      let E := fresh "E" in
      destruct (Py.setitem l k v) eqn:E; cbn [subscript] in H;
      [apply setitem_insert in E as [? ->]|]
  | subscript _ ?o _ = _ => destruct o; cbn [subscript] in H
  | (if ?c then _ else _) = _ => destruct c
  end; try discriminate; injection H as <-; cbn [registers memory program pc width];
  rewrite ?length_insert; repeat split; eauto.
Qed.

Lemma step_frame_witness :
  step (fresh 256 load_image) = Continue after_load /\
  exists i,
    decode (program (fresh 256 load_image)) (pc (fresh 256 load_image)) = inr i /\
    program after_load = program (fresh 256 load_image) /\
    pc after_load = (pc (fresh 256 load_image) + width i)%nat /\
    length (registers after_load) = length (registers (fresh 256 load_image)) /\
    length (memory after_load) = length (memory (fresh 256 load_image)) /\
    match i with
    | WRITE_MEM _ _ _ =>
        registers after_load = registers (fresh 256 load_image) /\
        exists k v, memory after_load = <[k := v]> (memory (fresh 256 load_image))
    | _ =>
        memory after_load = memory (fresh 256 load_image) /\
        exists k v, registers after_load = <[k := v]> (registers (fresh 256 load_image))
    end.
Proof.
  assert (H : step (fresh 256 load_image) = Continue after_load) by reflexivity.
  split; [exact H|].
  exact (step_frame (fresh 256 load_image) after_load H).
Defined.

(** [pc] never passes the end of the image. *)
Lemma reachable_within vm0 vm :
  reachable vm0 vm -> (pc vm0 <= length (program vm0))%nat ->
  (pc vm <= length (program vm))%nat.
Proof.
  induction 1 as [|vm vm' Hr IH Hs]; intros H0; [exact H0|].
  apply step_continue in Hs as (i & Hdec & -> & ->).
  apply decode_fetch in Hdec as (b & _ & Hlen & _). exact Hlen.
Qed.

(** X13. Where a run halts.  [pc] never passes the end of the image: a
    run of [execute] that starts inside the image (or at its end) and
    halts, halts with [pc] equal to the length of the image, the image
    unchanged. *)
Theorem execute_halts_at_end vm vm' :
  (pc vm <= length (program vm))%nat ->
  execute vm = Halted vm' ->
  pc vm' = length (program vm) /\ program vm' = program vm /\ reachable vm vm'.
Proof.
  intros Hpc He. unfold execute in He.
  destruct (execute_fuel_enough (length (program vm)) vm)
    as [(vm1 & He1 & Hr & Hend)|(e1 & vm1 & He1 & _)]; [lia| |];
    rewrite He1 in He; [|discriminate]. injection He as <-.
  pose proof (reachable_within _ _ Hr Hpc) as Hle.
  destruct (reachable_pc _ _ Hr) as [_ Hprog].
  split; [rewrite <- Hprog; lia|]. now split.
Qed.

Lemma execute_halts_at_end_witness :
  (pc (fresh 256 load_image) <= length (program (fresh 256 load_image)))%nat /\
  execute (fresh 256 load_image) = Halted after_load /\
  pc after_load = length (program (fresh 256 load_image)) /\
  program after_load = program (fresh 256 load_image) /\
  reachable (fresh 256 load_image) after_load.
Proof.
  assert (Hpc : (pc (fresh 256 load_image)
                 <= length (program (fresh 256 load_image)))%nat)
    by (vm_compute; lia).
  assert (H : execute (fresh 256 load_image) = Halted after_load) by reflexivity.
  split; [exact Hpc|]. split; [exact H|].
  exact (execute_halts_at_end (fresh 256 load_image) after_load Hpc H).
Defined.

Lemma length_image_cons i instrs :
  length (image (i :: instrs)) = (width i + length (image instrs))%nat.
Proof. unfold image. cbn [flat_map]. now rewrite length_app, length_be_digits. Qed.

(** The loop on an image of instructions that fit, entered at the start
    of one of them, applies them one after the other. *)
Lemma execute_fuel_image instrs : forall pre vm fuel,
  Forall fits instrs ->
  program vm = pre ++ image instrs -> pc vm = length pre ->
  (length (image instrs) <= fuel)%nat ->
  execute_fuel fuel vm = run_instrs instrs vm.
Proof.
  induction instrs as [|i instrs IH]; intros pre vm fuel Hfit Hprog Hpc Hfuel.
  - cbn [image flat_map] in Hprog. rewrite app_nil_r in Hprog.
    destruct fuel; cbn [execute_fuel run_instrs]; rewrite Hprog, Hpc, Nat.ltb_irrefl;
      reflexivity.
  - inversion Hfit as [|? ? Hi Hrest]; subst.
    rewrite length_image_cons in Hfuel. pose proof (width_at_least_2 i).
    destruct fuel as [|fuel]; [lia|]. cbn [execute_fuel run_instrs].
    assert (Hdec : decode (program vm) (pc vm) = inr i).
    { rewrite Hprog, Hpc. unfold image. cbn [flat_map].
      now apply decode_packed. }
    replace (_ <? _)%nat with true
      by (symmetry; apply Nat.ltb_lt; now apply decode_in_image in Hdec).
    unfold step. rewrite Hdec.
    destruct (apply i vm) as [vm1|e vm1] eqn:Ha; [|reflexivity].
    apply apply_continue in Ha as [Hprog1 Hpc1].
    apply (IH (pre ++ Py.be_digits (width i) (packed i))); [exact Hrest| | |lia].
    + rewrite Hprog1, Hprog. unfold image. cbn [flat_map]. now rewrite app_assoc.
    + rewrite Hpc1, Hpc, length_app, length_be_digits. reflexivity.
Qed.

(** X14. Fetch and decode stay in step with the encoding.  On the image
    of any sequence of instructions whose operands fit, whatever the
    registers and the memory, [execute] applies the effects of exactly
    these instructions, in order, up to the first that raises: the
    variable-width fetch never loses the instruction boundaries. *)
Theorem execute_image instrs registers memory :
  Forall fits instrs ->
  execute (VM registers memory (image instrs) 0)
  = run_instrs instrs (VM registers memory (image instrs) 0).
Proof.
  intros Hfit. unfold execute.
  apply (execute_fuel_image instrs []); [exact Hfit|reflexivity|reflexivity|].
  cbn [program]. lia.
Qed.

Lemma execute_image_witness :
  Forall fits [LOAD_CONST 10 0; LEQ 0 2 1] /\
  execute (VM (replicate 32 0) (replicate 4 0) (image [LOAD_CONST 10 0; LEQ 0 2 1]) 0)
  = run_instrs [LOAD_CONST 10 0; LEQ 0 2 1]
      (VM (replicate 32 0) (replicate 4 0) (image [LOAD_CONST 10 0; LEQ 0 2 1]) 0).
Proof.
  assert (Hfit : Forall fits [LOAD_CONST 10 0; LEQ 0 2 1]).
  { repeat constructor; unfold fits_width; lia. }
  split; [exact Hfit|].
  exact (execute_image [LOAD_CONST 10 0; LEQ 0 2 1] (replicate 32 0) (replicate 4 0) Hfit).
Defined.

End Sequencing.

(** ** What the assembler writes *)

Section AssemblerOutput.
Import Assembler Codec Machine Program Examples Samples.

Lemma line_errors_dec (lines : list string) : forall n,
  (forall i line, lines !! i = Some line -> line_error line (n + i) = None) \/
  (exists i line e, lines !! i = Some line /\ line_error line (n + i) = Some e).
Proof.
  induction lines as [|l ls IH]; intros n; [left; intros i line H; discriminate|].
  destruct (line_error l n) as [e|] eqn:El.
  - right. exists 0%nat, l, e. now rewrite Nat.add_0_r.
  - destruct (IH (S n)) as [Hok|(i & line & e & Hi & He)].
    + left. intros [|i] line Hi; cbn in Hi.
      * injection Hi as <-. now rewrite Nat.add_0_r.
      * rewrite <- Nat.add_succ_comm. now apply Hok.
    + right. exists (S i), line, e. split; [exact Hi|].
      now rewrite <- Nat.add_succ_comm.
Qed.

Lemma assemble_loop_ok (lines : list string) : forall n binary_output log_output,
  (forall i line, lines !! i = Some line -> line_error line (n + i) = None) ->
  exists outs,
    Forall (fun o => fits (snd o)) outs /\
    Forall2 reads_as (instruction_lines lines n) outs /\
    assemble_loop lines n binary_output log_output
    = Effects (Some (binary_output ++ image (map snd outs)))
              (Some (log_output ++ trace outs)) [] 0.
Proof.
  induction lines as [|l ls IH]; intros n bin log Hok.
  - exists []. cbn. rewrite !app_nil_r. repeat split; constructor.
  - assert (Hl : line_error l n = None).
    { specialize (Hok 0%nat l eq_refl). now rewrite Nat.add_0_r in Hok. }
    assert (Hrest : forall i line, ls !! i = Some line ->
                      line_error line (S n + i) = None).
    { intros i line Hi. rewrite Nat.add_succ_comm. now apply (Hok (S i)). }
    cbn [assemble_loop instruction_lines]. unfold line_error in Hl.
    destruct (tokenize l) as [[mnemonic operands]|]; [|now apply IH].
    destruct (encode_instruction mnemonic operands n) as [e|[encoded entry]] eqn:He;
      [discriminate|].
    apply encode_inr in He as (i & Hm & Hops & Hfit & -> & ->).
    destruct (Py.be_digits (Interpreter.width i) (packed i)) as [|b bs] eqn:Hd.
    { apply (f_equal length) in Hd. rewrite length_be_digits in Hd.
      pose proof (width_at_least_2 i). cbn in Hd. lia. }
    rewrite <- Hd.
    destruct (IH (S n) (bin ++ Py.be_digits (Interpreter.width i) (packed i))
                (log ++ [(n, entry_of i)]) Hrest) as (outs & Hfits & Hreads & ->).
    exists ((n, i) :: outs). split; [now constructor|].
    split; [constructor; [now repeat split|exact Hreads]|].
    unfold image, trace. cbn [map flat_map fst snd]. now rewrite <- !app_assoc.
Qed.

(** A written image is the image of instructions that fit. *)
Lemma assemble_written text bin :
  binary_file (assemble text) = Some bin ->
  exists instrs, Forall fits instrs /\ bin = image instrs.
Proof.
  intros Hbin. unfold assemble in Hbin.
  destruct (line_errors_dec (readlines text) 1) as [Hok|(i & line & e & Hi & He)].
  - destruct (assemble_loop_ok (readlines text) 1 [] [] Hok)
      as (outs & Hfits & _ & Hres).
    rewrite Hres in Hbin. cbn in Hbin. injection Hbin as <-.
    exists (map snd outs). split; [now apply Forall_map|reflexivity].
  - destruct (assemble_loop_fail (readlines text) 1 [] [] i line e Hi He)
      as (j & l' & e' & _ & _ & _ & _ & Hres).
    rewrite Hres in Hbin. discriminate.
Qed.

(** X15. What the assembler writes.  When the assembler writes the binary
    image, no line of the text ran into an error; the image is the
    concatenation, in line order, of the encodings of the lines that hold
    an instruction (blank and comment-only lines give nothing); the trace
    has one entry for each of these lines, keyed by its 1-based number and
    holding its instruction; nothing goes to the error stream and the exit
    status is 0. *)
Theorem assemble_output text bin :
  binary_file (assemble text) = Some bin ->
  (forall i line, readlines text !! i = Some line -> line_error line (S i) = None) /\
  exists outs,
    Forall (fun o => fits (snd o)) outs /\
    Forall2 reads_as (instruction_lines (readlines text) 1) outs /\
    bin = image (map snd outs) /\
    assemble text = Effects (Some bin) (Some (trace outs)) [] 0.
Proof.
  intros Hbin.
  destruct (line_errors_dec (readlines text) 1) as [Hok|(i & line & e & Hi & He)].
  - split; [exact Hok|]. unfold assemble in *.
    destruct (assemble_loop_ok (readlines text) 1 [] [] Hok)
      as (outs & Hfits & Hreads & Hres).
    rewrite Hres in Hbin. cbn in Hbin. injection Hbin as <-.
    exists outs. split; [exact Hfits|]. split; [exact Hreads|].
    split; [reflexivity|]. exact Hres.
  - exfalso. unfold assemble in Hbin.
    destruct (assemble_loop_fail (readlines text) 1 [] [] i line e Hi He)
      as (j & l' & e' & _ & _ & _ & _ & Hres).
    rewrite Hres in Hbin. discriminate.
Qed.

Lemma assemble_output_witness :
  binary_file (assemble scenario_1) = Some scenario_1_image /\
  (forall i line, readlines scenario_1 !! i = Some line ->
                  line_error line (S i) = None) /\
  exists outs,
    Forall (fun o => fits (snd o)) outs /\
    Forall2 reads_as (instruction_lines (readlines scenario_1) 1) outs /\
    scenario_1_image = image (map snd outs) /\
    assemble scenario_1 = Effects (Some scenario_1_image) (Some (trace outs)) [] 0.
Proof.
  assert (H : binary_file (assemble scenario_1) = Some scenario_1_image)
    by (vm_compute; reflexivity).
  split; [exact H|].
  exact (assemble_output scenario_1 scenario_1_image H).
Defined.

End AssemblerOutput.

(** ** Running an assembled program *)

Section AssembledRuns.
Import Interpreter Codec Machine Program Examples Samples.

Lemma apply_well_formed i vm :
  well_formed vm -> fits i ->
  (exists vm', apply i vm = Continue vm' /\ well_formed vm') \/
  (exists addr, apply i vm = Raise (AddressOutsideMemory addr) vm).
Proof.
  intros Hwf Hfit. unfold well_formed.
  destruct i as [B C|B C|B C D|B C D]; cbn [fits apply] in *.
  - destruct Hfit as [FB FC]. left. rewrite (register_update vm C _ Hwf FC).
    eexists. split; [reflexivity|]. cbn. now rewrite length_insert.
  - destruct Hfit as [FB FC].
    destruct (register_lookup vm C Hwf FC) as (addr & _ & ->). cbn [subscript].
    destruct (outside vm addr) eqn:E; [right; now exists addr|left].
    unfold outside in E.
    destruct (lookup_lt_is_Some_2 (memory vm) (Z.to_nat addr)) as [v Hv]; [lia|].
    rewrite getitem_in_range, Hv by lia. cbn [subscript].
    rewrite (register_update vm B _ Hwf FB).
    eexists. split; [reflexivity|]. cbn. now rewrite length_insert.
  - destruct Hfit as (FB & FC & FD).
    destruct (register_lookup vm C Hwf FC) as (base & _ & ->).
    destruct (register_lookup vm B Hwf FB) as (val & _ & ->). cbn [subscript].
    destruct (outside vm (base + D)) eqn:E; [right; now eexists|left].
    unfold outside in E. rewrite setitem_in_range by lia.
    eexists. split; [reflexivity|]. exact Hwf.
  - destruct Hfit as (FB & FC & FD).
    destruct (register_lookup vm B Hwf FB) as (vB & _ & ->).
    destruct (register_lookup vm D Hwf FD) as (vD & _ & ->). cbn [subscript].
    left. rewrite (register_update vm C _ Hwf FC).
    eexists. split; [reflexivity|]. cbn. now rewrite length_insert.
Qed.

Lemma run_instrs_errors instrs : forall vm e vm',
  well_formed vm -> Forall fits instrs ->
  run_instrs instrs vm = Raised e vm' ->
  exists addr, e = AddressOutsideMemory addr.
Proof.
  induction instrs as [|i instrs IH]; intros vm e vm' Hwf Hfit H;
    cbn [run_instrs] in H; [discriminate|].
  inversion Hfit as [|? ? Hi Hrest]; subst.
  destruct (apply_well_formed i vm Hwf Hi) as [(vm1 & Ha & Hwf1)|(addr & Ha)];
    rewrite Ha in H.
  - now apply (IH vm1 e vm').
  - injection H as <- _. now exists addr.
Qed.

(** X16. Running what the assembler wrote.  An image written by the
    assembler is the image of a sequence of instructions that fit; a fresh
    interpreter, whatever its memory size, executes exactly these
    instructions in order, and the only error it can run into is an
    address outside the memory: never a truncated instruction, never an
    unknown opcode. *)
Theorem assembled_program_runs text bin memory_size :
  Assembler.binary_file (Assembler.assemble text) = Some bin ->
  exists instrs,
    Forall fits instrs /\ bin = image instrs /\
    execute (fresh memory_size bin) = run_instrs instrs (fresh memory_size bin) /\
    forall e vm',
      execute (fresh memory_size bin) = Raised e vm' ->
      exists addr, e = AddressOutsideMemory addr.
Proof.
  intros Hbin.
  destruct (assemble_written text bin Hbin) as (instrs & Hf & ->).
  exists instrs. split; [exact Hf|]. split; [reflexivity|].
  assert (He : execute (fresh memory_size (image instrs))
               = run_instrs instrs (fresh memory_size (image instrs)))
    by (unfold execute;
        apply (execute_fuel_image instrs []);
        [exact Hf|reflexivity|reflexivity|cbn; lia]).
  split; [exact He|]. intros e vm' Hr. rewrite He in Hr.
  apply (run_instrs_errors _ _ _ _ (proj1 (fresh_invariant _ _)) Hf Hr).
Qed.

Lemma assembled_program_runs_witness :
  Assembler.binary_file (Assembler.assemble scenario_2)
    = Some [xe4; x00; x00; x00; x28; x00; xf4; x00; x18] /\
  exists instrs,
    Forall fits instrs /\
    [xe4; x00; x00; x00; x28; x00; xf4; x00; x18] = image instrs /\
    execute (fresh 4 [xe4; x00; x00; x00; x28; x00; xf4; x00; x18])
    = run_instrs instrs (fresh 4 [xe4; x00; x00; x00; x28; x00; xf4; x00; x18]) /\
    forall e vm',
      execute (fresh 4 [xe4; x00; x00; x00; x28; x00; xf4; x00; x18]) = Raised e vm' ->
      exists addr, e = AddressOutsideMemory addr.
Proof.
  assert (H : Assembler.binary_file (Assembler.assemble scenario_2)
              = Some [xe4; x00; x00; x00; x28; x00; xf4; x00; x18])
    by (vm_compute; reflexivity).
  split; [exact H|].
  exact (assembled_program_runs scenario_2 _ 4%nat H).
Defined.

End AssembledRuns.

(** ** Lines of the source text *)

Section Tokenizer.
Import Assembler Program.










End Tokenizer.

(** ** The result of a run of the interpreter *)

Section Results.
Import Interpreter Machine Program Examples Samples.

Lemma length_memory_slice vm start end_ :
  0 <= start <= end_ -> end_ < Z.of_nat (length (memory vm)) ->
  length (get_memory_slice vm start end_) = Z.to_nat (end_ - start + 1).
Proof.
  intros Hs He. unfold get_memory_slice, Py.slice.
  rewrite length_take, length_drop. lia.
Qed.

(** X18. The memory slice is inclusive at both ends: for
    [0 <= start <= end < memory size] it has [end - start + 1] cells, and
    its cell [k] is memory cell [start + k]. *)
Theorem get_memory_slice_spec vm start end_ :
  0 <= start <= end_ -> end_ < Z.of_nat (length (memory vm)) ->
  length (get_memory_slice vm start end_) = Z.to_nat (end_ - start + 1) /\
  forall k, (k < Z.to_nat (end_ - start + 1))%nat ->
    get_memory_slice vm start end_ !! k = memory vm !! (Z.to_nat start + k)%nat.
Proof.
  intros Hs He. split; [now apply length_memory_slice|].
  intros k Hk. unfold get_memory_slice, Py.slice.
  replace (Z.to_nat (end_ + 1) - Z.to_nat start)%nat
    with (Z.to_nat (end_ - start + 1)) by lia.
  rewrite lookup_take_lt by exact Hk. apply lookup_drop.
Qed.

Lemma get_memory_slice_spec_witness :
  0 <= 2 <= 5 /\ 5 < Z.of_nat (length (memory after_load)) /\
  length (get_memory_slice after_load 2 5) = Z.to_nat (5 - 2 + 1) /\
  forall k, (k < Z.to_nat (5 - 2 + 1))%nat ->
    get_memory_slice after_load 2 5 !! k = memory after_load !! (Z.to_nat 2 + k)%nat.
Proof.
  assert (Hs : 0 <= 2 <= 5) by lia.
  assert (He : 5 < Z.of_nat (length (memory after_load))) by (vm_compute; reflexivity).
  split; [exact Hs|]. split; [exact He|].
  exact (get_memory_slice_spec after_load 2 5 Hs He).
Defined.









(** X20. The result document.  The interpreter writes the result document
    only when the input file exists, [execute] has halted (at the end of
    the image) without raising, and the request has been accepted with
    [0 <= start <= end < 256]; the document then is the inclusive slice
    of the final memory, [end - start + 1] cells long, nothing goes to the
    error stream and the exit status is 0. *)
Theorem main_result_document input range doc :
  result_file (main input range) = Some doc ->
  exists image vm start end_,
    input = Some image /\
    execute (fresh 256 image) = Halted vm /\
    pc vm = length image /\
    parse_memory_range range 256 = inr (start, end_) /\
    0 <= start <= end_ /\ end_ < 256 /\
    doc = get_memory_slice vm start end_ /\
    length doc = Z.to_nat (end_ - start + 1) /\
    main input range = Effects (Some doc) [] (Some 0).
Proof.
  unfold main. destruct input as [image|]; [|discriminate].
  fold (fresh 256 image).
  destruct (execute (fresh 256 image)) as [vm|e vm|vm] eqn:He; try discriminate.
  assert (Hreach : reachable (fresh 256 image) vm /\ pc vm = length image).
  { unfold execute in He.
    destruct (execute_fuel_enough (length (program (fresh 256 image))) (fresh 256 image))
      as [(vm1 & He1 & Hr & Hend)|(e1 & vm1 & He1 & _)]; [lia| |];
      rewrite He1 in He; [|discriminate]. injection He as <-.
    split; [exact Hr|].
    pose proof (reachable_within _ _ Hr (Nat.le_0_l _)) as Hle.
    destruct (reachable_pc _ _ Hr) as [_ Hprog]. rewrite Hprog in *.
    cbn [program fresh load_program] in *. lia. }
  destruct Hreach as [Hr Hpc].
  destruct (reachable_invariant 256 image vm Hr) as (_ & _ & Hlen).
  rewrite Hlen. change (Z.of_nat 256) with 256.
  destruct (parse_memory_range range 256) as [e|[start end_]] eqn:Hp; [discriminate|].
  intros [= <-]. exists image, vm, start, end_.
  apply parse_memory_range_accepts in Hp as (g1 & g2 & _ & _ & _ & Hb & Hb').
  assert (Hlt : end_ < Z.of_nat (length (memory vm))) by (rewrite Hlen; lia).
  pose proof (length_memory_slice vm start end_ Hb Hlt) as Hl.
  repeat split; try assumption; try reflexivity; lia.
Qed.

Lemma main_result_document_witness :
  result_file (main (Some scenario_1_image) "0:3") = Some [0; 0; 0; 0] /\
  exists image vm start end_,
    Some scenario_1_image = Some image /\
    execute (fresh 256 image) = Halted vm /\
    pc vm = length image /\
    parse_memory_range "0:3" 256 = inr (start, end_) /\
    0 <= start <= end_ /\ end_ < 256 /\
    [0; 0; 0; 0] = get_memory_slice vm start end_ /\
    length [0; 0; 0; 0] = Z.to_nat (end_ - start + 1) /\
    main (Some scenario_1_image) "0:3" = Effects (Some [0; 0; 0; 0]) [] (Some 0).
Proof.
  assert (H : result_file (main (Some scenario_1_image) "0:3") = Some [0; 0; 0; 0])
    by (vm_compute; reflexivity).
  split; [exact H|].
  exact (main_result_document (Some scenario_1_image) "0:3" [0; 0; 0; 0] H).
Defined.

End Results.
